(** * Ledger balance engine of [cli.py]: a shallow embedding and its properties

    The engine of [cli.py] keeps, for every cash advance, a principal balance,
    an accrued interest balance and the interest paid so far, and allocates
    payments over the advances.  All amounts are [decimal.Decimal] values and
    all dates are midnight [datetime] values obtained from [strptime].

    The embedding follows the source class by class:
    - [Decimal] with the arithmetic of the default context
      (28 significant digits, ROUND_HALF_EVEN);
    - [datetime] as the proleptic Gregorian ordinal of a midnight date;
    - [SimpleInterestRateStrategy], [Advance], [UserGlobalBalance].

    The properties come in the order: facts about [Decimal] and its
    rounding, the methods of [Advance], the scenarios, the interest formula,
    accrual and statements, the allocation of payments, the bounds on
    reachable states, the amount kept for future advances, and the
    additivity of the accrual. *)

From Stdlib Require Import ZArith QArith Qpower Qabs Lia Lqa Bool List String Ascii.
Import ListNotations.

Local Open Scope Z_scope.

(** ** decimal.Decimal *)

Module Dec.

(** A finite [Decimal]: the signed coefficient and the exponent; the number is
    [coef * 10 ^ dexp].  The sign of a zero and the special values (NaN,
    Infinity) are left out: no operation of the engine produces a special
    value from finite ones, and the sign of a zero is invisible to [==], [<=]
    and [>].  The exponent limits of the context (Emax = 999999) are left out
    as well. *)
Record Decimal : Set := mkDecimal { coef : Z; dexp : Z }.

(** [getcontext().prec] of the default context. *)
Definition prec : Z := 28.

(** [len(self._int)]: the number of decimal digits of a coefficient [c >= 0]. *)
Fixpoint ndigits_fuel (fuel : nat) (c : Z) : Z :=
  match fuel with
  | O => 1
  | S f => if c <? 10 then 1 else 1 + ndigits_fuel f (c / 10)
  end.

Definition ndigits (c : Z) : Z := ndigits_fuel (Z.to_nat (Z.log2 c)) c.

(** [Decimal._fix] under ROUND_HALF_EVEN: a coefficient longer than [prec]
    digits is cut to its [prec] leading digits and rounded to nearest, ties
    to the even neighbour; a carry to [prec + 1] digits drops one more
    digit. *)
Definition _fix (d : Decimal) : Decimal :=
  let a := Z.abs (coef d) in
  let n := ndigits a in
  if n <=? prec then d
  else
    let s := n - prec in
    let q := a / 10 ^ s in
    let r := a mod 10 ^ s in
    let up := (10 ^ s <? 2 * r) || ((2 * r =? 10 ^ s) && Z.odd q) in
    let q' := if up then q + 1 else q in
    if 10 ^ prec <=? q'
    then mkDecimal (Z.sgn (coef d) * (q' / 10)) (dexp d + s + 1)
    else mkDecimal (Z.sgn (coef d) * q') (dexp d + s).

(** The exact sum, at the smaller of the two exponents. *)
Definition exact_add (x y : Decimal) : Decimal :=
  let m := Z.min (dexp x) (dexp y) in
  mkDecimal (coef x * 10 ^ (dexp x - m) + coef y * 10 ^ (dexp y - m)) m.

Definition exact_mul (x y : Decimal) : Decimal :=
  mkDecimal (coef x * coef y) (dexp x + dexp y).

Definition neg (x : Decimal) : Decimal := mkDecimal (- coef x) (dexp x).

(** [__add__], [__sub__], [__mul__]: the exact result, then [_fix]. *)
Definition add (x y : Decimal) : Decimal := _fix (exact_add x y).
Definition sub (x y : Decimal) : Decimal := _fix (exact_add x (neg y)).
Definition mul (x y : Decimal) : Decimal := _fix (exact_mul x y).

(** [_cmp]: the sign of the exact difference decides every comparison. *)
Definition cmp (x y : Decimal) : Z := Z.sgn (coef (exact_add x (neg y))).

Definition leb (x y : Decimal) : bool := cmp x y <=? 0.
Definition ltb (x y : Decimal) : bool := cmp x y <? 0.
Definition eqb (x y : Decimal) : bool := cmp x y =? 0.

(** [Decimal(n)] for an integer [n], and the literal [Decimal("0")]. *)
Definition of_Z (n : Z) : Decimal := mkDecimal n 0.
Definition zero : Decimal := of_Z 0.

(** A value that [_fix] leaves as it is. *)
Definition fits (d : Decimal) : Prop := Z.abs (coef d) < 10 ^ prec.

Definition fitsb (d : Decimal) : bool := Z.abs (coef d) <? 10 ^ prec.

(** The rational number a [Decimal] stands for. *)
Definition toQ (d : Decimal) : Q := (inject_Z (coef d) * Qpower 10 (dexp d))%Q.

(** The coefficient a value has once written at a smaller exponent [m]. *)
Definition aligned (d : Decimal) (m : Z) : Z := coef d * 10 ^ (dexp d - m).

End Dec.

Import Dec.

(** ** datetime *)

Module Datetime.

(** Every [datetime] of the engine comes from [strptime(_, '%Y-%m-%d')], so
    its time of day is midnight; it is kept as its proleptic Gregorian
    ordinal ([toordinal()]), and [(a - b).days] is the difference of the
    ordinals. *)
Definition datetime : Set := Z.

Definition _is_leap (year : Z) : bool :=
  (year mod 4 =? 0) && (negb (year mod 100 =? 0) || (year mod 400 =? 0)).

Definition _days_before_year (year : Z) : Z :=
  let y := year - 1 in y * 365 + y / 4 - y / 100 + y / 400.

Definition _days_in_month (year month : Z) : Z :=
  if (month =? 2) && _is_leap year then 29
  else nth (Z.to_nat month) [-1; 31; 28; 31; 30; 31; 30; 31; 31; 30; 31; 30; 31] (-1).

Definition _days_before_month (year month : Z) : Z :=
  nth (Z.to_nat month) [-1; 0; 31; 59; 90; 120; 151; 181; 212; 243; 273; 304; 334] (-1)
  + (if (2 <? month) && _is_leap year then 1 else 0).

Definition _ymd2ord (year month day : Z) : Z :=
  _days_before_year year + _days_before_month year month + day.

Definition MINYEAR : Z := 1.
Definition MAXYEAR : Z := 9999.

(** [datetime.max.toordinal()]: the ordinal of 9999-12-31. *)
Definition _MAXORDINAL : Z := 3652059.

(** [datetime(year, month, day)]: [None] stands for its [ValueError]. *)
Definition make_datetime (year month day : Z) : option datetime :=
  if (MINYEAR <=? year) && (year <=? MAXYEAR)
     && (1 <=? month) && (month <=? 12)
     && (1 <=? day) && (day <=? _days_in_month year month)
  then Some (_ymd2ord year month day)
  else None.

(** [d + timedelta(days=n)]: [None] stands for its [OverflowError]. *)
Definition add_days (d : datetime) (n : Z) : option datetime :=
  let o := d + n in
  if (1 <=? o) && (o <=? _MAXORDINAL) then Some o else None.

(** [(a - b).days]. *)
Definition days_between (a b : datetime) : Z := a - b.

Definition digit_of (c : ascii) : option Z :=
  let n := Z.of_nat (nat_of_ascii c) in
  if (48 <=? n) && (n <=? 57) then Some (n - 48) else None.

(** The month field of the format, [1[0-2]|0[1-9]|[1-9]], given as the
    characters found before the second hyphen. *)
Definition parse_month (cs : list ascii) : option Z :=
  match cs with
  | [c] =>
      match digit_of c with
      | Some v => if 1 <=? v then Some v else None
      | None => None
      end
  | [c1; c2] =>
      match digit_of c1, digit_of c2 with
      | Some 1, Some v => if v <=? 2 then Some (10 + v) else None
      | Some 0, Some v => if 1 <=? v then Some v else None
      | _, _ => None
      end
  | _ => None
  end.

(** The day field, [3[01]|[12]\d|0[1-9]|[1-9]| [1-9]], given as the
    characters after the second hyphen: nothing may follow it. *)
Definition parse_day (cs : list ascii) : option Z :=
  match cs with
  | [c] =>
      match digit_of c with
      | Some v => if 1 <=? v then Some v else None
      | None => None
      end
  | [c1; c2] =>
      match digit_of c2 with
      | None => None
      | Some v =>
          if Ascii.eqb c1 " "%char then (if 1 <=? v then Some v else None)
          else
            match digit_of c1 with
            | Some 3 => if v <=? 1 then Some (30 + v) else None
            | Some 2 => Some (20 + v)
            | Some 1 => Some (10 + v)
            | Some 0 => if 1 <=? v then Some v else None
            | _ => None
            end
      end
  | _ => None
  end.

(** The characters up to the first hyphen, and those after it. *)
Fixpoint split_hyphen (cs : list ascii) : option (list ascii * list ascii) :=
  match cs with
  | [] => None
  | c :: rest =>
      if Ascii.eqb c "-"%char then Some ([], rest)
      else
        match split_hyphen rest with
        | Some (l, r) => Some (c :: l, r)
        | None => None
        end
  end.

(** [datetime.strptime(s, '%Y-%m-%d')] on a string of ASCII characters:
    four digits of year, a hyphen, the month, a hyphen, the day, and the
    range checks of the [datetime] constructor.  [None] stands for
    [ValueError]. *)
Definition strptime (s : string) : option datetime :=
  match list_ascii_of_string s with
  | y1 :: y2 :: y3 :: y4 :: h :: rest =>
      if Ascii.eqb h "-"%char then
        match digit_of y1, digit_of y2, digit_of y3, digit_of y4 with
        | Some a, Some b, Some c, Some d =>
            match split_hyphen rest with
            | Some (ms, ds) =>
                match parse_month ms, parse_day ds with
                | Some m, Some dd => make_datetime (1000 * a + 100 * b + 10 * c + d) m dd
                | _, _ => None
                end
            | None => None
            end
        | _, _, _, _ => None
        end
      else None
  | _ => None
  end.

End Datetime.

Import Datetime.

(** ** The interest strategy *)

(** [InterestRateStrategyBase] has one concrete subclass; a strategy object
    carries its [daily_interest]. *)
Inductive InterestRateStrategyBase : Set :=
| SimpleInterestRateStrategy (daily_interest : Decimal).

Definition daily_interest (s : InterestRateStrategyBase) : Decimal :=
  match s with SimpleInterestRateStrategy r => r end.

(** [(amount * (Decimal("1") + self.daily_interest * days)) - amount] *)
Definition calculate (s : InterestRateStrategyBase) (amount days : Decimal) : Decimal :=
  match s with
  | SimpleInterestRateStrategy r =>
      Dec.sub (Dec.mul amount (Dec.add (Dec.of_Z 1) (Dec.mul r days))) amount
  end.

(** ** Advance *)

(** The integer [0] that [pay] and [pay_interest] store in a balance mixes
    with [Decimal] operands as [Decimal(0)] does, so the fields are
    [Decimal] throughout. *)
Record Advance : Set := mkAdvance {
  _identifier : Z;
  _created_at : datetime;
  _updated_at : datetime;
  _interest_rate_strategy : InterestRateStrategyBase;
  _initial_amount : Decimal;
  _balance : Decimal;
  _interest_payable_balance : Decimal;
  _interest_paid : Decimal
}.

(** [Advance.__init__] *)
Definition new_Advance (strategy : InterestRateStrategyBase) (identifier : Z)
    (balance : Decimal) (created_at : datetime) : Advance :=
  mkAdvance identifier created_at created_at strategy balance balance Dec.zero Dec.zero.

Definition calculate_interest_payable_balance (self : Advance) (date : datetime) : Advance :=
  let interest_period := days_between date (_updated_at self) in
  mkAdvance (_identifier self) (_created_at self) date (_interest_rate_strategy self)
    (_initial_amount self) (_balance self)
    (Dec.add (_interest_payable_balance self)
       (calculate (_interest_rate_strategy self) (_balance self) (Dec.of_Z interest_period)))
    (_interest_paid self).

Definition set_balance (self : Advance) (b : Decimal) : Advance :=
  mkAdvance (_identifier self) (_created_at self) (_updated_at self)
    (_interest_rate_strategy self) (_initial_amount self) b
    (_interest_payable_balance self) (_interest_paid self).

Definition set_interest (self : Advance) (payable paid : Decimal) : Advance :=
  mkAdvance (_identifier self) (_created_at self) (_updated_at self)
    (_interest_rate_strategy self) (_initial_amount self) (_balance self) payable paid.

(** [Advance.pay]: the advance afterwards and the returned remaining amount. *)
Definition pay (self : Advance) (amount : Decimal) : Advance * Decimal :=
  if Dec.leb amount (_balance self)
  then (set_balance self (Dec.sub (_balance self) amount), Dec.zero)
  else (set_balance self Dec.zero, Dec.sub amount (_balance self)).

(** [Advance.pay_interest] *)
Definition pay_interest (self : Advance) (amount : Decimal) (paid_date : datetime)
    : Advance * Decimal :=
  let self := calculate_interest_payable_balance self paid_date in
  if Dec.leb amount (_interest_payable_balance self)
  then (set_interest self (Dec.sub (_interest_payable_balance self) amount)
                          (Dec.add (_interest_paid self) amount),
        Dec.zero)
  else (set_interest self Dec.zero
                          (Dec.add (_interest_paid self) (_interest_payable_balance self)),
        Dec.sub amount (_interest_payable_balance self)).

(** The dictionary returned by [get_statement]; [st_created_at] is kept as
    the [datetime] whose [isoformat()] the dictionary holds. *)
Record Statement : Set := mkStatement {
  st_identifier : Z;
  st_created_at : datetime;
  st_initial_amount : Decimal;
  st_balance : Decimal;
  st_interest_payable_balance : Decimal;
  st_interest_paid : Decimal
}.

Definition read_statement (self : Advance) : Statement :=
  mkStatement (_identifier self) (_created_at self) (_initial_amount self)
    (_balance self) (_interest_payable_balance self) (_interest_paid self).

(** [Advance.get_statement]: the advance afterwards and the dictionary, or
    [None] when [date + timedelta(days=1)] overflows. *)
Definition get_statement (self : Advance) (date : datetime) : option (Advance * Statement) :=
  match add_days date 1 with
  | Some next =>
      let self := calculate_interest_payable_balance self next in
      Some (self, read_statement self)
  | None => None
  end.

(** ** UserGlobalBalance *)

Record UserGlobalBalance : Set := mkUserGlobalBalance {
  overall_payments_for_future : Decimal;
  actives_advances : list Advance
}.

(** [UserGlobalBalance.__init__] *)
Definition new_UserGlobalBalance : UserGlobalBalance :=
  mkUserGlobalBalance Dec.zero [].

(** The loop that [pay_advance] runs twice, with [pay_interest] and then
    with [pay]:
    [for advance in self.actives_advances:
         amount = advance.step(amount)
         if amount == Decimal("0"): break]
    It returns the advances afterwards and the amount left. *)
Fixpoint allocate (step : Advance -> Decimal -> Advance * Decimal)
    (advances : list Advance) (amount : Decimal) : list Advance * Decimal :=
  match advances with
  | [] => ([], amount)
  | advance :: rest =>
      let (advance', amount') := step advance amount in
      if Dec.eqb amount' Dec.zero then (advance' :: rest, amount')
      else
        let (rest', amount'') := allocate step rest amount' in
        (advance' :: rest', amount'')
  end.

(** The first loop of [pay_advance]. *)
Definition pay_interest_loop (advances : list Advance) (amount : Decimal)
    (paid_date : datetime) : list Advance * Decimal :=
  allocate (fun advance amount => pay_interest advance amount paid_date) advances amount.

(** The second loop of [pay_advance]. *)
Definition pay_loop (advances : list Advance) (amount : Decimal)
    : list Advance * Decimal :=
  allocate pay advances amount.

(** [pay_advance] after its [strptime]. *)
Definition pay_advance_at (self : UserGlobalBalance) (amount : Decimal)
    (paid_date : datetime) : UserGlobalBalance :=
  let (advances1, amount1) := pay_interest_loop (actives_advances self) amount paid_date in
  let (advances2, amount2) :=
    if Dec.ltb Dec.zero amount1 then pay_loop advances1 amount1 else (advances1, amount1) in
  if Dec.ltb Dec.zero amount2
  then mkUserGlobalBalance (Dec.add (overall_payments_for_future self) amount2) advances2
  else mkUserGlobalBalance (overall_payments_for_future self) advances2.

(** The rate every advance is created with. *)
Definition default_rate : Decimal := mkDecimal 35 (-5).

(** [create_advance] after its [strptime]; the nested [pay_advance] parses
    the same string again and gets the same date. *)
Definition create_advance_at (self : UserGlobalBalance) (balance : Decimal)
    (advance_date : datetime) : UserGlobalBalance :=
  let advances :=
    (actives_advances self ++
      [new_Advance (SimpleInterestRateStrategy default_rate)
         (Z.of_nat (List.length (actives_advances self)) + 1) balance advance_date])%list in
  if Dec.ltb Dec.zero (overall_payments_for_future self)
  then pay_advance_at (mkUserGlobalBalance Dec.zero advances)
         (overall_payments_for_future self) advance_date
  else mkUserGlobalBalance (overall_payments_for_future self) advances.

(** [UserGlobalBalance.create_advance]: [None] stands for the [ValueError]
    of [strptime], raised before anything is changed. *)
Definition create_advance (self : UserGlobalBalance) (balance : Decimal)
    (create_date : string) : option UserGlobalBalance :=
  match strptime create_date with
  | Some advance_date => Some (create_advance_at self balance advance_date)
  | None => None
  end.

(** [UserGlobalBalance.pay_advance] *)
Definition pay_advance (self : UserGlobalBalance) (amount : Decimal)
    (date : string) : option UserGlobalBalance :=
  match strptime date with
  | Some paid_date => Some (pay_advance_at self amount paid_date)
  | None => None
  end.

(** The dictionary returned by [get_global_statement]. *)
Record GlobalStatement : Set := mkGlobalStatement {
  gs_overall_payments_for_future : Decimal;
  gs_overall_advance_balance : Decimal;
  gs_overall_interest_payable_balance : Decimal;
  gs_overall_interest_paid : Decimal;
  gs_individual_advance_statement : list Statement
}.

(** The loop of [get_global_statement]: the advances afterwards, the three
    running sums and the statements collected so far. *)
Fixpoint statement_loop (advances : list Advance) (date : datetime)
    (acc : Decimal * Decimal * Decimal * list Statement)
    : option (list Advance * (Decimal * Decimal * Decimal * list Statement)) :=
  match advances with
  | [] => Some ([], acc)
  | advance :: rest =>
      match get_statement advance date with
      | None => None
      | Some (advance', st) =>
          let '(bal, payable, paid, sts) := acc in
          match statement_loop rest date
                  (Dec.add bal (st_balance st),
                   Dec.add payable (st_interest_payable_balance st),
                   Dec.add paid (st_interest_paid st),
                   (sts ++ [st])%list) with
          | None => None
          | Some (rest', acc') => Some (advance' :: rest', acc')
          end
      end
  end.

(** [get_global_statement] after its [strptime]. *)
Definition get_global_statement_at (self : UserGlobalBalance) (date : datetime)
    : option (UserGlobalBalance * GlobalStatement) :=
  match statement_loop (actives_advances self) date
          (Dec.zero, Dec.zero, Dec.zero, []) with
  | None => None
  | Some (advances', (bal, payable, paid, sts)) =>
      Some (mkUserGlobalBalance (overall_payments_for_future self) advances',
            mkGlobalStatement (overall_payments_for_future self) bal payable paid sts)
  end.

(** [UserGlobalBalance.get_global_statement] *)
Definition get_global_statement (self : UserGlobalBalance) (end_date : string)
    : option (UserGlobalBalance * GlobalStatement) :=
  match strptime end_date with
  | Some date => get_global_statement_at self date
  | None => None
  end.

(** ** Replay *)

(** What a caller does to an engine: the two event handlers and the
    statement query. *)
Inductive call : Set :=
| CreateAdvance (amount : Decimal) (date : datetime)
| PayAdvance (amount : Decimal) (date : datetime)
| GetGlobalStatement (date : datetime).

Definition call_date (c : call) : datetime :=
  match c with
  | CreateAdvance _ d | PayAdvance _ d | GetGlobalStatement d => d
  end.

Definition do_call (self : UserGlobalBalance) (c : call) : option UserGlobalBalance :=
  match c with
  | CreateAdvance amount d => Some (create_advance_at self amount d)
  | PayAdvance amount d => Some (pay_advance_at self amount d)
  | GetGlobalStatement d =>
      match get_global_statement_at self d with
      | Some (self', _) => Some self'
      | None => None
      end
  end.

Fixpoint replay (self : UserGlobalBalance) (calls : list call) : option UserGlobalBalance :=
  match calls with
  | [] => Some self
  | c :: rest =>
      match do_call self c with
      | Some self' => replay self' rest
      | None => None
      end
  end.

(** ** The scenario of the specification *)

(** [Decimal("1000.00")], [Decimal("500.00")]. *)
Definition amount_1000_00 : Decimal := mkDecimal 100000 (-2).
Definition amount_500_00 : Decimal := mkDecimal 50000 (-2).

(** The dates 2021-01-01 and 2021-01-15, and the advance of 1000.00
    created on 2021-01-01. *)
Definition date_2021_01_01 : datetime := 737791.
Definition date_2021_01_15 : datetime := 737805.
Definition advance_1000_00 : Advance :=
  new_Advance (SimpleInterestRateStrategy default_rate) 1 amount_1000_00 date_2021_01_01.

(** ** Equality up to the representation of amounts *)

(** Two [Decimal]s are equal for [==] when they stand for the same number,
    whatever their exponents (1000.0 and 1000.00). *)
Definition same_value (x y : Decimal) : Prop := (toQ x == toQ y)%Q.




(** ** Accrual without rounding *)


(** ** Cleared balances *)

(** [pay_interest] and [pay] clear a balance by storing [0] in it. *)
Definition interest_cleared (a : Advance) : Prop :=
  _interest_payable_balance a = Dec.zero.

Definition principal_cleared (a : Advance) : Prop :=
  _balance a = Dec.zero.

(** What the first loop leaves of an advance it reaches: everything but
    the interest fields, and the date of the payment as [_updated_at]. *)
Definition interest_step (date : datetime) (a a' : Advance) : Prop :=
  _identifier a' = _identifier a
  /\ _created_at a' = _created_at a
  /\ _interest_rate_strategy a' = _interest_rate_strategy a
  /\ _initial_amount a' = _initial_amount a
  /\ _balance a' = _balance a
  /\ _updated_at a' = date.

(** What the second loop leaves of an advance: everything but the balance. *)
Definition principal_step (a a' : Advance) : Prop :=
  _identifier a' = _identifier a
  /\ _created_at a' = _created_at a
  /\ _updated_at a' = _updated_at a
  /\ _interest_rate_strategy a' = _interest_rate_strategy a
  /\ _initial_amount a' = _initial_amount a
  /\ _interest_payable_balance a' = _interest_payable_balance a
  /\ _interest_paid a' = _interest_paid a.

(** ** Reachable states *)

(** The calls come with dates that do not decrease, starting at or after
    [from]. *)
Fixpoint date_ordered (from : datetime) (calls : list call) : Prop :=
  match calls with
  | [] => True
  | c :: rest => from <= call_date c /\ date_ordered (call_date c) rest
  end.

(** The amount of every event is positive. *)
Definition positive_amount (c : call) : Prop :=
  match c with
  | CreateAdvance amount _ | PayAdvance amount _ => (0 < toQ amount)%Q
  | GetGlobalStatement _ => True
  end.

(** The amount of every advance has at most [prec] digits. *)
Definition advance_amount_fits (c : call) : Prop :=
  match c with
  | CreateAdvance amount _ => fits amount
  | _ => True
  end.

(** The bounds every advance is claimed to respect. *)
Definition advance_in_range (a : Advance) : Prop :=
  (0 <= toQ (_balance a))%Q
  /\ (0 <= toQ (_interest_payable_balance a))%Q
  /\ (toQ (_balance a) <= toQ (_initial_amount a))%Q
  /\ _created_at a <= _updated_at a.

Definition engine_in_range (self : UserGlobalBalance) : Prop :=
  Forall advance_in_range (actives_advances self)
  /\ (0 <= toQ (overall_payments_for_future self))%Q.

(** What holds of an advance after the calls up to the date [last]. *)
Definition advance_inv (last : datetime) (a : Advance) : Prop :=
  advance_in_range a
  /\ fits (_balance a)
  /\ _interest_rate_strategy a = SimpleInterestRateStrategy default_rate
  /\ _created_at a <= last
  /\ _updated_at a <= last + 1.

Definition engine_inv (last : datetime) (self : UserGlobalBalance) : Prop :=
  Forall (advance_inv last) (actives_advances self)
  /\ (0 <= toQ (overall_payments_for_future self))%Q.

(** ** Settled advances *)

(** An advance that owes nothing: balance and interest payable are zero as
    numbers. *)
Definition settled (a : Advance) : Prop :=
  (toQ (_balance a) == 0)%Q /\ (toQ (_interest_payable_balance a) == 0)%Q.

(** While an amount is kept for future advances, every advance is settled;
    the amount kept is a result of [Decimal] arithmetic. *)
Definition credit_inv (self : UserGlobalBalance) : Prop :=
  fits (overall_payments_for_future self)
  /\ (0 <= toQ (overall_payments_for_future self))%Q
  /\ ((0 < toQ (overall_payments_for_future self))%Q ->
      Forall settled (actives_advances self)).

(** ** The [balances] command *)

(** A row of [select * from events]: [event[1]], [event[3]] and, for
    [event_amount], the value of [Decimal(str(event[2]))]. *)
Record event : Set := mkEvent {
  event_type : string;
  event_amount : Decimal;
  event_date_created : string
}.

(** The loop of [balances] over the fetched events: an event is applied
    when [strptime(end_date) >= strptime(event[3])], as an advance or as a
    payment by its type, and passed over otherwise.  [None] stands for the
    [ValueError] of a [strptime]. *)
Fixpoint balances_loop (user_global_balance : UserGlobalBalance) (end_date : string)
    (events : list event) : option UserGlobalBalance :=
  match events with
  | [] => Some user_global_balance
  | ev :: rest =>
      match strptime end_date with
      | None => None
      | Some e =>
          match strptime (event_date_created ev) with
          | None => None
          | Some d =>
              if d <=? e then
                if String.eqb (event_type ev) "advance" then
                  match create_advance user_global_balance (event_amount ev)
                          (event_date_created ev) with
                  | Some u => balances_loop u end_date rest
                  | None => None
                  end
                else if String.eqb (event_type ev) "payment" then
                  match pay_advance user_global_balance (event_amount ev)
                          (event_date_created ev) with
                  | Some u => balances_loop u end_date rest
                  | None => None
                  end
                else balances_loop user_global_balance end_date rest
              else balances_loop user_global_balance end_date rest
          end
      end
  end.

(** [balances] up to the dictionary it prints: the loop over the events on
    a new engine, then [get_global_statement(end_date)]. *)
Definition balances (end_date : string) (events : list event) : option GlobalStatement :=
  match balances_loop new_UserGlobalBalance end_date events with
  | Some u =>
      match get_global_statement u end_date with
      | Some (_, g) => Some g
      | None => None
      end
  | None => None
  end.

(** The calls the loop of [balances] makes for the end date [e]. *)
Fixpoint calls_until (e : datetime) (events : list event) : list call :=
  match events with
  | [] => []
  | ev :: rest =>
      match strptime (event_date_created ev) with
      | Some d =>
          if d <=? e then
            if String.eqb (event_type ev) "advance"
            then CreateAdvance (event_amount ev) d :: calls_until e rest
            else if String.eqb (event_type ev) "payment"
            then PayAdvance (event_amount ev) d :: calls_until e rest
            else calls_until e rest
          else calls_until e rest
      | None => calls_until e rest
      end
  end.

(** The events come in the order of their dates. *)
Fixpoint events_ordered (from : datetime) (events : list event) : Prop :=
  match events with
  | [] => True
  | ev :: rest =>
      match strptime (event_date_created ev) with
      | Some d => from <= d /\ events_ordered d rest
      | None => False
      end
  end.

(** The bounds of a line of the statement. *)
Definition statement_in_range (st : Statement) : Prop :=
  (0 <= toQ (st_balance st))%Q
  /\ (toQ (st_balance st) <= toQ (st_initial_amount st))%Q
  /\ (0 <= toQ (st_interest_payable_balance st))%Q.

(** ** Identifiers *)

(** The identifiers [1, 2, ..., n]. *)
Definition identifiers (n : nat) : list Z :=
  map (fun j => Z.of_nat j + 1) (seq 0 n).

Definition count_advances (calls : list call) : nat :=
  List.length (filter (fun c => match c with CreateAdvance _ _ => true | _ => false end) calls).

(** What no call changes of an advance. *)
Definition same_identity (a a' : Advance) : Prop :=
  _identifier a' = _identifier a
  /\ _created_at a' = _created_at a
  /\ _interest_rate_strategy a' = _interest_rate_strategy a
  /\ _initial_amount a' = _initial_amount a.

(** The sum a loop of [+=] builds from [start]. *)
Definition sum_from (start : Decimal) (l : list Decimal) : Decimal :=
  fold_left Dec.add l start.

(** ** The range of exponents and of characters *)

(** [Decimal.adjusted()], the exponent of the leading digit, and
    [getcontext().Emax]: an operation whose result has an adjusted
    exponent above [Emax] raises [Overflow], which the embedding of
    [Decimal] leaves out.  Two operands with adjusted exponents below
    [Emax] have a sum and a difference within [Emax]. *)
Definition adjusted (d : Decimal) : Z := dexp d + ndigits (Z.abs (coef d)) - 1.

Definition Emax : Z := 999999.

(** A string of ASCII characters: on these the embedding of [strptime]
    accepts what the library accepts. *)
Definition is_ascii (s : string) : bool :=
  forallb (fun c => (nat_of_ascii c <? 128)%nat) (list_ascii_of_string s).

(** ** Payments without rounding *)












(** * Properties *)

(** ** Facts about [Decimal] *)

Module DecFacts.

Lemma pow10_pos (k : Z) : 0 < 10 ^ k \/ k < 0.
Proof.
  destruct (Z_lt_le_dec k 0) as [Hk|Hk]; [now right|left].
  apply Z.pow_pos_nonneg; lia.
Qed.

Lemma pow10_gt0 (k : Z) : 0 <= k -> 0 < 10 ^ k.
Proof. intros Hk. apply Z.pow_pos_nonneg; lia. Qed.

Lemma pow10_succ (k : Z) : 0 <= k -> 10 ^ (k + 1) = 10 * 10 ^ k.
Proof. intros Hk. rewrite Z.pow_add_r by lia. lia. Qed.

Lemma pow10_split (a b : Z) : 0 <= a -> 0 <= b -> 10 ^ (a + b) = 10 ^ a * 10 ^ b.
Proof. intros. now apply Z.pow_add_r. Qed.

Lemma pow10_le (a b : Z) : 0 <= a <= b -> 10 ^ a <= 10 ^ b.
Proof. intros. apply Z.pow_le_mono_r; lia. Qed.

Lemma pow10_lt (a b : Z) : 0 <= a < b -> 10 ^ a < 10 ^ b.
Proof. intros. apply Z.pow_lt_mono_r; lia. Qed.

(** The digit count brackets the coefficient between two powers of ten. *)
Lemma ndigits_fuel_spec (fuel : nat) :
  forall c, 0 < c -> Z.log2 c <= Z.of_nat fuel ->
    1 <= ndigits_fuel fuel c /\
    10 ^ (ndigits_fuel fuel c - 1) <= c < 10 ^ (ndigits_fuel fuel c).
Proof.
  induction fuel as [|f IH]; intros c Hc Hlog.
  - assert (c < 2).
    { destruct (Z_lt_le_dec c 2) as [?|H2]; [assumption|].
      apply Z.log2_le_mono in H2. change (Z.log2 2) with 1 in H2. lia. }
    simpl. replace c with 1 by lia. cbn. lia.
  - cbn [ndigits_fuel]. destruct (Z.ltb_spec c 10) as [Hlt|Hge].
    + cbn. lia.
    + assert (Hq : 0 < c / 10) by (apply Z.div_str_pos; lia).
      assert (H2q : 2 * (c / 10) <= c).
      { pose proof (Z.mul_div_le c 10 ltac:(lia)). lia. }
      assert (Hl : Z.log2 (c / 10) <= Z.of_nat f).
      { apply Z.log2_le_mono in H2q. rewrite Z.log2_double in H2q by lia. lia. }
      destruct (IH (c / 10) Hq Hl) as [H1 [Hlo Hhi]].
      set (n := ndigits_fuel f (c / 10)) in *.
      split; [lia|].
      replace (1 + n - 1) with ((n - 1) + 1) by lia.
      replace (1 + n) with (n + 1) by lia.
      rewrite !pow10_succ by lia.
      pose proof (Z.mul_div_le c 10 ltac:(lia)).
      pose proof (Z.mod_pos_bound c 10 ltac:(lia)).
      pose proof (Z.div_mod c 10 ltac:(lia)).
      lia.
Qed.

Lemma ndigits_spec (c : Z) : 0 < c ->
  1 <= ndigits c /\ 10 ^ (ndigits c - 1) <= c < 10 ^ ndigits c.
Proof.
  intros Hc. unfold ndigits. apply ndigits_fuel_spec; [assumption|].
  rewrite Z2Nat.id by apply Z.log2_nonneg. lia.
Qed.

Lemma ndigits_zero : ndigits 0 = 1.
Proof. reflexivity. Qed.

Lemma ndigits_pos (c : Z) : 0 <= c -> 1 <= ndigits c.
Proof.
  intros Hc. destruct (Z.eq_dec c 0) as [->|Hn]; [rewrite ndigits_zero; lia|].
  apply ndigits_spec; lia.
Qed.

(** A coefficient has at most [prec] digits exactly when it is below
    [10 ^ prec]. *)
Lemma ndigits_le_prec (c : Z) : 0 <= c -> (ndigits c <= prec <-> c < 10 ^ prec).
Proof.
  intros Hc. destruct (Z.eq_dec c 0) as [->|Hn].
  - rewrite ndigits_zero. unfold prec. split; intros; [reflexivity|lia].
  - destruct (ndigits_spec c ltac:(lia)) as [H1 [Hlo Hhi]]. split; intros H.
    + eapply Z.lt_le_trans; [exact Hhi|]. apply pow10_le. lia.
    + destruct (Z_le_gt_dec (ndigits c) prec) as [?|Hgt]; [assumption|exfalso].
      assert (10 ^ prec <= 10 ^ (ndigits c - 1)) by (apply pow10_le; unfold prec in *; lia).
      lia.
Qed.

Lemma fits_iff (d : Decimal) : fits d <-> fitsb d = true.
Proof. unfold fits, fitsb. symmetry. apply Z.ltb_lt. Qed.

(** [_fix] leaves a value of at most [prec] digits as it is. *)
Lemma fix_fits (d : Decimal) : fits d -> _fix d = d.
Proof.
  unfold fits, _fix. intros H.
  apply ndigits_le_prec in H; [|apply Z.abs_nonneg].
  apply Z.leb_le in H. now rewrite H.
Qed.

(** Rounding at work: a tie goes to the even neighbour, and a carry out of
    the 28 digits drops one more digit. *)
Example fix_tie_to_even_below :
  _fix (mkDecimal 10000000000000000000000000005 0)
  = mkDecimal 1000000000000000000000000000 1.
Proof. reflexivity. Qed.

Example fix_tie_to_even_above :
  _fix (mkDecimal 10000000000000000000000000015 0)
  = mkDecimal 1000000000000000000000000002 1.
Proof. reflexivity. Qed.

Example fix_carry :
  _fix (mkDecimal (-99999999999999999999999999995) 0)
  = mkDecimal (-1000000000000000000000000000) 2.
Proof. reflexivity. Qed.

Example sub_rounds :
  Dec.sub (mkDecimal 1 27) (mkDecimal 1 (-2)) = mkDecimal 1000000000000000000000000000 0.
Proof. reflexivity. Qed.

(** *** Values as rationals *)

Lemma Qpow10_pos (e : Z) : (0 < 10 ^ e)%Q.
Proof. apply Qpower_0_lt. reflexivity. Qed.

Lemma Qpow10_inject (k : Z) : 0 <= k -> (10 ^ k == inject_Z (10 ^ k))%Q.
Proof. intros Hk. now rewrite Zpower_Qpower. Qed.

Lemma Qpow10_add (a b : Z) : (10 ^ (a + b) == 10 ^ a * 10 ^ b)%Q.
Proof. apply Qpower_plus. discriminate. Qed.

Lemma toQ_aligned (d : Decimal) (m : Z) : m <= dexp d ->
  (toQ d == inject_Z (aligned d m) * 10 ^ m)%Q.
Proof.
  intros Hm. unfold toQ, aligned.
  replace (dexp d) with ((dexp d - m) + m) at 1 by lia.
  rewrite Qpow10_add, inject_Z_mult, (Qpow10_inject (dexp d - m)) by lia.
  ring.
Qed.

Lemma Qscale_le (a b e : Z) :
  (inject_Z a * 10 ^ e <= inject_Z b * 10 ^ e)%Q <-> a <= b.
Proof. rewrite Qmult_le_r by apply Qpow10_pos. now rewrite <- Zle_Qle. Qed.

Lemma Qscale_lt (a b e : Z) :
  (inject_Z a * 10 ^ e < inject_Z b * 10 ^ e)%Q <-> a < b.
Proof. rewrite Qmult_lt_r by apply Qpow10_pos. now rewrite <- Zlt_Qlt. Qed.

Lemma Qscale_eq (a b e : Z) :
  (inject_Z a * 10 ^ e == inject_Z b * 10 ^ e)%Q <-> a = b.
Proof.
  split; [|now intros ->].
  intros H. apply Z.le_antisymm; apply (Qscale_le _ _ e); rewrite H; apply Qle_refl.
Qed.

Lemma toQ_le_aligned (x y : Decimal) (m : Z) : m <= dexp x -> m <= dexp y ->
  ((toQ x <= toQ y)%Q <-> aligned x m <= aligned y m).
Proof. intros Hx Hy. rewrite (toQ_aligned x m Hx), (toQ_aligned y m Hy). apply Qscale_le. Qed.

Lemma toQ_lt_aligned (x y : Decimal) (m : Z) : m <= dexp x -> m <= dexp y ->
  ((toQ x < toQ y)%Q <-> aligned x m < aligned y m).
Proof. intros Hx Hy. rewrite (toQ_aligned x m Hx), (toQ_aligned y m Hy). apply Qscale_lt. Qed.

Lemma toQ_eq_aligned (x y : Decimal) (m : Z) : m <= dexp x -> m <= dexp y ->
  ((toQ x == toQ y)%Q <-> aligned x m = aligned y m).
Proof. intros Hx Hy. rewrite (toQ_aligned x m Hx), (toQ_aligned y m Hy). apply Qscale_eq. Qed.

(** The exact operations are the operations of the rationals. *)
Lemma toQ_exact_add (x y : Decimal) : (toQ (exact_add x y) == toQ x + toQ y)%Q.
Proof.
  set (m := Z.min (dexp x) (dexp y)).
  rewrite (toQ_aligned x m), (toQ_aligned y m) by (subst m; lia).
  unfold exact_add, toQ, aligned. fold m. cbn [coef dexp].
  rewrite inject_Z_plus. ring.
Qed.

Lemma toQ_exact_mul (x y : Decimal) : (toQ (exact_mul x y) == toQ x * toQ y)%Q.
Proof.
  unfold exact_mul, toQ. cbn [coef dexp].
  rewrite inject_Z_mult, Qpow10_add. ring.
Qed.

Lemma toQ_neg (x : Decimal) : (toQ (neg x) == - toQ x)%Q.
Proof. unfold neg, toQ. cbn [coef dexp]. rewrite inject_Z_opp. ring. Qed.

Lemma toQ_zero : (toQ zero == 0)%Q.
Proof. reflexivity. Qed.

Lemma toQ_of_Z (n : Z) : (toQ (of_Z n) == inject_Z n)%Q.
Proof. unfold toQ, of_Z. cbn. ring. Qed.

(** The sign of a value is the sign of its coefficient. *)
Lemma toQ_sign (d : Decimal) :
  ((0 <= toQ d)%Q <-> 0 <= coef d) /\ ((0 < toQ d)%Q <-> 0 < coef d)
  /\ ((toQ d == 0)%Q <-> coef d = 0).
Proof.
  unfold toQ.
  pose proof (Qscale_le 0 (coef d) (dexp d)) as H1.
  pose proof (Qscale_lt 0 (coef d) (dexp d)) as H2.
  pose proof (Qscale_eq (coef d) 0 (dexp d)) as H3.
  change (inject_Z 0) with 0%Q in H1, H2, H3.
  rewrite Qmult_0_l in H1, H2, H3. tauto.
Qed.

(** The comparisons of [Decimal] are the comparisons of the values. *)
Lemma cmp_sgn (x y : Decimal) :
  (cmp x y < 0 <-> (toQ x < toQ y)%Q) /\ (cmp x y = 0 <-> (toQ x == toQ y)%Q)
  /\ (0 < cmp x y <-> (toQ y < toQ x)%Q).
Proof.
  unfold cmp. pose proof (toQ_exact_add x (neg y)) as H. rewrite toQ_neg in H.
  destruct (toQ_sign (exact_add x (neg y))) as [H1 [H2 H3]].
  set (c := coef (exact_add x (neg y))) in *.
  rewrite H in H1, H2, H3. pose proof (Z.sgn_spec c) as Hs.
  repeat split; intros Hc.
  - assert (~ 0 <= c) as Hn by lia. rewrite <- H1 in Hn. lra.
  - assert (~ 0 <= c) as Hn; [|lia]. rewrite <- H1. lra.
  - assert (c = 0) as Hn by lia. rewrite <- H3 in Hn. lra.
  - assert (c = 0) as Hn; [|lia]. rewrite <- H3. lra.
  - assert (0 < c) as Hn by lia. rewrite <- H2 in Hn. lra.
  - assert (0 < c) as Hn; [|lia]. rewrite <- H2. lra.
Qed.

Lemma leb_le (x y : Decimal) : leb x y = true <-> (toQ x <= toQ y)%Q.
Proof.
  unfold leb. rewrite Z.leb_le. destruct (cmp_sgn x y) as [H1 [H2 H3]].
  split; intros H.
  - destruct (Z.eq_dec (cmp x y) 0) as [E|E].
    + apply H2 in E. lra.
    + assert (cmp x y < 0) as L by lia. apply H1 in L. lra.
  - destruct (Z_le_gt_dec (cmp x y) 0) as [?|G]; [assumption|].
    assert (0 < cmp x y) as G' by lia. apply H3 in G'. lra.
Qed.

Lemma leb_gt (x y : Decimal) : leb x y = false <-> (toQ y < toQ x)%Q.
Proof.
  rewrite <- Bool.not_true_iff_false, leb_le. split; intros H; lra.
Qed.

Lemma ltb_lt (x y : Decimal) : ltb x y = true <-> (toQ x < toQ y)%Q.
Proof. unfold ltb. rewrite Z.ltb_lt. apply cmp_sgn. Qed.

Lemma ltb_ge (x y : Decimal) : ltb x y = false <-> (toQ y <= toQ x)%Q.
Proof.
  rewrite <- Bool.not_true_iff_false, ltb_lt. split; intros H; lra.
Qed.

Lemma eqb_eq (x y : Decimal) : eqb x y = true <-> (toQ x == toQ y)%Q.
Proof. unfold eqb. rewrite Z.eqb_eq. apply cmp_sgn. Qed.

Lemma eqb_neq (x y : Decimal) : eqb x y = false <-> ~ (toQ x == toQ y)%Q.
Proof. rewrite <- Bool.not_true_iff_false, eqb_eq. tauto. Qed.

(** *** Rounding *)

Lemma fix_neg (d : Decimal) : _fix (neg d) = neg (_fix d).
Proof.
  unfold _fix, neg. cbn [coef dexp]. rewrite Z.abs_opp, Z.sgn_opp.
  destruct (ndigits (Z.abs (coef d)) <=? prec); [reflexivity|].
  cbv zeta.
  match goal with |- context [if ?b then _ else _] => destruct b end;
    cbn [coef dexp]; f_equal; lia.
Qed.

(** The leading digits [q] and the cut digits [r] of a coefficient that is
    too long. *)
Lemma round_parts (a : Z) : 10 ^ prec <= a ->
  let s := ndigits a - prec in
  let q := a / 10 ^ s in
  let r := a mod 10 ^ s in
  1 <= s /\ 10 ^ (prec - 1) <= q < 10 ^ prec /\ a = q * 10 ^ s + r /\ 0 <= r < 10 ^ s.
Proof.
  intros Ha s q r.
  assert (Hpos : 0 < a) by (pose proof (pow10_gt0 prec ltac:(unfold prec; lia)); lia).
  destruct (ndigits_spec a Hpos) as [H1 [Hlo Hhi]].
  assert (Hs : 1 <= s).
  { subst s. destruct (Z_le_gt_dec (ndigits a) prec) as [Hle|?]; [exfalso|lia].
    apply ndigits_le_prec in Hle; lia. }
  pose proof (pow10_gt0 s ltac:(lia)) as Hps.
  assert (Hn : ndigits a = prec + s) by (subst s; lia).
  rewrite Hn in Hlo, Hhi.
  replace (prec + s - 1) with ((prec - 1) + s) in Hlo by lia.
  rewrite pow10_split in Hlo, Hhi by (unfold prec; lia).
  pose proof (Z.div_mod a (10 ^ s) ltac:(lia)) as Hdm.
  pose proof (Z.mod_pos_bound a (10 ^ s) Hps) as Hr.
  fold q r in Hdm, Hr.
  repeat split; try lia.
  - subst q. apply Z.div_le_lower_bound; lia.
  - subst q. apply Z.div_lt_upper_bound; lia.
Qed.

(** What [_fix] does to a non-negative value that is too long: with [q]
    the leading [prec] digits and [g] the exponent of the last kept digit,
    the value lies between [q * 10^g] and [(q+1) * 10^g], and the result is
    one of the two, the upper one only when the value is above the lower. *)
Lemma fix_round_nonneg (d : Decimal) : 0 <= coef d -> ~ fits d ->
  exists q g,
    10 ^ (prec - 1) <= q < 10 ^ prec /\
    (inject_Z q * 10 ^ g <= toQ d)%Q /\ (toQ d < inject_Z (q + 1) * 10 ^ g)%Q /\
    ((toQ (_fix d) == inject_Z q * 10 ^ g)%Q \/
     ((inject_Z q * 10 ^ g < toQ d)%Q /\ (toQ (_fix d) == inject_Z (q + 1) * 10 ^ g)%Q)) /\
    fits (_fix d) /\ 0 < coef (_fix d).
Proof.
  intros Hc Hnf. unfold fits in Hnf. rewrite Z.abs_eq in Hnf by assumption.
  assert (Ha : 10 ^ prec <= coef d) by lia.
  destruct (round_parts (coef d) Ha) as [Hs [Hq [Hdm Hr]]].
  unfold _fix. rewrite Z.abs_eq by assumption.
  destruct (Z.leb_spec (ndigits (coef d)) prec) as [Hle|_].
  { apply ndigits_le_prec in Hle; lia. }
  cbv zeta.
  set (s := ndigits (coef d) - prec) in *.
  set (q := coef d / 10 ^ s) in *. set (r := coef d mod 10 ^ s) in *.
  pose proof (pow10_gt0 s ltac:(lia)) as Hps.
  assert (Hsg : Z.sgn (coef d) = 1) by (apply Z.sgn_pos; lia). rewrite Hsg.
  exists q, (dexp d + s).
  assert (HQ : forall z, (inject_Z z * 10 ^ (dexp d + s) == inject_Z (z * 10 ^ s) * 10 ^ dexp d)%Q).
  { intros z. rewrite inject_Z_mult, <- (Qpow10_inject s) by lia.
    rewrite (Z.add_comm (dexp d)), Qpow10_add. ring. }
  assert (HA : (inject_Z q * 10 ^ (dexp d + s) <= toQ d)%Q).
  { unfold toQ. rewrite HQ. apply Qscale_le. lia. }
  assert (HB : (toQ d < inject_Z (q + 1) * 10 ^ (dexp d + s))%Q).
  { unfold toQ. rewrite HQ. apply Qscale_lt. lia. }
  assert (HD : 0 < r -> (inject_Z q * 10 ^ (dexp d + s) < toQ d)%Q).
  { intros Hr0. unfold toQ. rewrite HQ. apply Qscale_lt. lia. }
  split; [assumption|]. split; [exact HA|]. split; [exact HB|].
  set (up := (10 ^ s <? 2 * r) || ((2 * r =? 10 ^ s) && Z.odd q)).
  assert (Hup : up = true -> 0 < r).
  { unfold up. intros H. apply Bool.orb_true_iff in H. destruct H as [H|H].
    - apply Z.ltb_lt in H. lia.
    - apply Bool.andb_true_iff in H. destruct H as [H _]. apply Z.eqb_eq in H. lia. }
  pose proof (pow10_succ (prec - 1) ltac:(unfold prec; lia)) as H10.
  replace (prec - 1 + 1) with prec in H10 by lia.
  rewrite !Z.mul_1_l.
  destruct up.
  - specialize (Hup eq_refl).
    destruct (Z.leb_spec (10 ^ prec) (q + 1)) as [Hcarry|Hno].
    + assert (Eq : q + 1 = 10 * 10 ^ (prec - 1)) by lia.
      assert (Ediv : (q + 1) / 10 = 10 ^ (prec - 1)).
      { rewrite Eq, Z.mul_comm. apply Z.div_mul. lia. }
      rewrite Ediv. split; [right; split; [auto|]|].
      * unfold toQ. cbn [coef dexp]. rewrite Eq.
        replace (dexp d + s + 1) with (1 + (dexp d + s)) by lia.
        rewrite (Qpow10_add 1), inject_Z_mult.
        change (10 ^ 1)%Q with (inject_Z 10). ring.
      * unfold fits. cbn [coef]. rewrite Z.abs_eq by lia. lia.
    + split; [right; split; [auto|reflexivity]|].
      unfold fits. cbn [coef]. rewrite Z.abs_eq by lia. lia.
  - destruct (Z.leb_spec (10 ^ prec) q) as [Hcarry|Hno]; [lia|].
    split; [left; reflexivity|].
    unfold fits. cbn [coef]. rewrite Z.abs_eq by lia. lia.
Qed.

Lemma Qscale_shift (z e k : Z) : 0 <= k ->
  (inject_Z z * 10 ^ (e + k) == inject_Z (z * 10 ^ k) * 10 ^ e)%Q.
Proof.
  intros Hk. rewrite inject_Z_mult, <- (Qpow10_inject k), Qpow10_add by lia. ring.
Qed.

(** Between two neighbours [q * 10^g] and [(q+1) * 10^g] of the grid of
    [prec]-digit numbers there is no number of at most [prec] digits. *)
Lemma grid_up (y : Decimal) (q g : Z) : fits y -> 10 ^ (prec - 1) <= q ->
  (inject_Z q * 10 ^ g < toQ y)%Q -> (inject_Z (q + 1) * 10 ^ g <= toQ y)%Q.
Proof.
  unfold fits. intros Hy Hq H.
  destruct (Z_le_gt_dec g (dexp y)) as [Hg|Hg].
  - rewrite (toQ_aligned y g Hg) in *. apply Qscale_lt in H. apply Qscale_le. lia.
  - exfalso. unfold toQ in H.
    replace g with (dexp y + (g - dexp y)) in H by lia.
    rewrite Qscale_shift in H by lia. apply Qscale_lt in H.
    pose proof (pow10_le 1 (g - dexp y) ltac:(lia)) as Hk.
    change (10 ^ 1) with 10 in Hk.
    pose proof (pow10_succ (prec - 1) ltac:(unfold prec; lia)) as H10.
    replace (prec - 1 + 1) with prec in H10 by lia.
    assert (10 ^ prec <= q * 10 ^ (g - dexp y)) by nia. lia.
Qed.

Lemma grid_down (y : Decimal) (q g : Z) : fits y -> 10 ^ (prec - 1) <= q ->
  (toQ y < inject_Z (q + 1) * 10 ^ g)%Q -> (toQ y <= inject_Z q * 10 ^ g)%Q.
Proof.
  unfold fits. intros Hy Hq H.
  destruct (Z_le_gt_dec g (dexp y)) as [Hg|Hg].
  - rewrite (toQ_aligned y g Hg) in *. apply Qscale_lt in H. apply Qscale_le. lia.
  - unfold toQ. replace g with (dexp y + (g - dexp y)) by lia.
    rewrite Qscale_shift by lia. apply Qscale_le.
    pose proof (pow10_le 1 (g - dexp y) ltac:(lia)) as Hk.
    change (10 ^ 1) with 10 in Hk.
    pose proof (pow10_succ (prec - 1) ltac:(unfold prec; lia)) as H10.
    replace (prec - 1 + 1) with prec in H10 by lia.
    assert (10 ^ prec <= q * 10 ^ (g - dexp y)) by nia. lia.
Qed.

Lemma fits_dec (d : Decimal) : {fits d} + {~ fits d}.
Proof. unfold fits. apply Z_lt_dec. Qed.

Lemma fits_neg (d : Decimal) : fits d -> fits (neg d).
Proof. unfold fits, neg. cbn [coef]. now rewrite Z.abs_opp. Qed.

Lemma neg_neg (d : Decimal) : neg (neg d) = d.
Proof. destruct d as [c e]. unfold neg. cbn [coef dexp]. f_equal. lia. Qed.

Lemma fix_le_fits_nonneg (x y : Decimal) : 0 <= coef x -> fits y ->
  (toQ x <= toQ y)%Q -> (toQ (_fix x) <= toQ y)%Q.
Proof.
  intros Hx Hy H. destruct (fits_dec x) as [Hf|Hf]; [now rewrite fix_fits|].
  destruct (fix_round_nonneg x Hx Hf) as (q & g & Hq & HA & HB & [HC|[HD HE]] & _).
  - lra.
  - rewrite HE. apply grid_up; [assumption|lia|lra].
Qed.

Lemma fix_ge_fits_nonneg (x y : Decimal) : 0 <= coef x -> fits y ->
  (toQ y <= toQ x)%Q -> (toQ y <= toQ (_fix x))%Q.
Proof.
  intros Hx Hy H. destruct (fits_dec x) as [Hf|Hf]; [now rewrite fix_fits|].
  destruct (fix_round_nonneg x Hx Hf) as (q & g & Hq & HA & HB & [HC|[HD HE]] & _).
  - rewrite HC. apply grid_down; [assumption|lia|lra].
  - lra.
Qed.

(** Rounding never steps over a number of at most [prec] digits. *)
Lemma fix_le_fits (x y : Decimal) : fits y ->
  (toQ x <= toQ y)%Q -> (toQ (_fix x) <= toQ y)%Q.
Proof.
  intros Hy H. destruct (Z_le_gt_dec 0 (coef x)) as [Hx|Hx].
  - now apply fix_le_fits_nonneg.
  - rewrite <- (neg_neg x), fix_neg, toQ_neg.
    pose proof (fix_ge_fits_nonneg (neg x) (neg y)) as G.
    rewrite !toQ_neg in G. cbn [neg coef] in G.
    specialize (G ltac:(lia) (fits_neg y Hy) ltac:(lra)). lra.
Qed.

Lemma fix_ge_fits (x y : Decimal) : fits y ->
  (toQ y <= toQ x)%Q -> (toQ y <= toQ (_fix x))%Q.
Proof.
  intros Hy H. destruct (Z_le_gt_dec 0 (coef x)) as [Hx|Hx].
  - now apply fix_ge_fits_nonneg.
  - rewrite <- (neg_neg x), fix_neg, toQ_neg.
    pose proof (fix_le_fits_nonneg (neg x) (neg y)) as G.
    rewrite !toQ_neg in G. cbn [neg coef] in G.
    specialize (G ltac:(lia) (fits_neg y Hy) ltac:(lra)). lra.
Qed.

Lemma fits_fix (d : Decimal) : fits (_fix d).
Proof.
  destruct (fits_dec d) as [Hf|Hf]; [now rewrite fix_fits|].
  destruct (Z_le_gt_dec 0 (coef d)) as [Hx|Hx].
  - now destruct (fix_round_nonneg d Hx Hf) as (q & g & _ & _ & _ & _ & H & _).
  - rewrite <- (neg_neg d), fix_neg. apply fits_neg.
    assert (Hn : ~ fits (neg d)).
    { intros F. apply Hf. rewrite <- (neg_neg d). now apply fits_neg. }
    destruct (fix_round_nonneg (neg d) ltac:(cbn; lia) Hn) as (q & g & _ & _ & _ & _ & H & _).
    exact H.
Qed.

(** A value that some [Decimal] of at most [prec] digits stands for is not
    changed by rounding. *)
Lemma fix_exact (x y : Decimal) : fits y -> (toQ y == toQ x)%Q ->
  (toQ (_fix x) == toQ x)%Q.
Proof.
  intros Hy E.
  pose proof (fix_le_fits x y Hy ltac:(lra)).
  pose proof (fix_ge_fits x y Hy ltac:(lra)). lra.
Qed.

(** Rounding keeps the sign. *)
Lemma fix_pos (x : Decimal) : (0 < toQ x)%Q -> (0 < toQ (_fix x))%Q.
Proof.
  intros H. destruct (fits_dec x) as [Hf|Hf]; [now rewrite fix_fits|].
  apply toQ_sign in H.
  destruct (fix_round_nonneg x ltac:(lia) Hf) as (q & g & _ & _ & _ & _ & _ & Hp).
  now apply toQ_sign.
Qed.

Lemma fix_nonneg (x : Decimal) : (0 <= toQ x)%Q -> (0 <= toQ (_fix x))%Q.
Proof.
  intros H. rewrite <- toQ_zero. apply fix_ge_fits; [|now rewrite toQ_zero].
  now vm_compute.
Qed.


(** *** Rounding depends on the value only *)

Lemma ndigits_unique (c n : Z) : 0 < c -> 10 ^ (n - 1) <= c < 10 ^ n -> ndigits c = n.
Proof.
  intros Hc [Hlo Hhi]. destruct (ndigits_spec c Hc) as [H1 [Mlo Mhi]].
  assert (Hn : 1 <= n).
  { destruct (Z_le_gt_dec 1 n) as [?|G]; [assumption|exfalso].
    destruct (Z.eq_dec n 0) as [->|]; [cbn in Hhi; lia|].
    rewrite Z.pow_neg_r in Hhi by lia. lia. }
  destruct (Z.lt_trichotomy (ndigits c) n) as [L|[E|G]]; [exfalso| assumption |exfalso].
  - pose proof (pow10_le (ndigits c) (n - 1) ltac:(lia)). lia.
  - pose proof (pow10_le n (ndigits c - 1) ltac:(lia)). lia.
Qed.

Lemma ndigits_mul10 (c : Z) : 0 < c -> ndigits (10 * c) = ndigits c + 1.
Proof.
  intros Hc. destruct (ndigits_spec c Hc) as [H1 [Mlo Mhi]].
  apply ndigits_unique; [lia|].
  replace (ndigits c + 1 - 1) with ((ndigits c - 1) + 1) by lia.
  rewrite !pow10_succ by lia. lia.
Qed.

Lemma fix_shift1 (c e : Z) : 10 ^ prec <= Z.abs c ->
  _fix (mkDecimal (10 * c) (e - 1)) = _fix (mkDecimal c e).
Proof.
  intros Hc.
  pose proof (pow10_gt0 prec ltac:(unfold prec; lia)) as Hp.
  unfold _fix. cbn [coef dexp].
  rewrite Z.abs_mul. change (Z.abs 10) with 10.
  rewrite Z.sgn_mul. change (Z.sgn 10) with 1. rewrite Z.mul_1_l.
  set (a := Z.abs c) in *.
  rewrite ndigits_mul10 by lia.
  destruct (round_parts a Hc) as [Hs _].
  destruct (Z.leb_spec (ndigits a + 1) prec) as [?|_]; [lia|].
  destruct (Z.leb_spec (ndigits a) prec) as [?|_]; [lia|].
  cbv zeta.
  replace (ndigits a + 1 - prec) with ((ndigits a - prec) + 1) by lia.
  set (s := ndigits a - prec) in *.
  pose proof (pow10_gt0 s ltac:(lia)) as Hps.
  rewrite pow10_succ by lia.
  rewrite Z.div_mul_cancel_l by lia.
  rewrite Z.mul_mod_distr_l by lia.
  set (q := a / 10 ^ s). set (r := a mod 10 ^ s).
  assert (E1 : (10 * 10 ^ s <? 2 * (10 * r)) = (10 ^ s <? 2 * r)).
  { destruct (Z.ltb_spec (10 * 10 ^ s) (2 * (10 * r))), (Z.ltb_spec (10 ^ s) (2 * r));
      try reflexivity; lia. }
  assert (E2 : (2 * (10 * r) =? 10 * 10 ^ s) = (2 * r =? 10 ^ s)).
  { destruct (Z.eqb_spec (2 * (10 * r)) (10 * 10 ^ s)), (Z.eqb_spec (2 * r) (10 ^ s));
      try reflexivity; lia. }
  rewrite E1, E2.
  match goal with |- context [if ?b then _ else _] => destruct b end; f_equal; lia.
Qed.

Lemma fix_shift (c e k : Z) : 0 <= k -> 10 ^ prec <= Z.abs c ->
  _fix (mkDecimal (c * 10 ^ k) (e - k)) = _fix (mkDecimal c e).
Proof.
  intros Hk Hc. revert k Hk e.
  apply (natlike_ind (fun k => forall e, _fix (mkDecimal (c * 10 ^ k) (e - k)) = _fix (mkDecimal c e))).
  - intros e. rewrite Z.mul_1_r, Z.sub_0_r. reflexivity.
  - intros k Hk IH e. rewrite <- (IH e).
    replace (c * 10 ^ Z.succ k) with (10 * (c * 10 ^ k))
      by (unfold Z.succ; rewrite pow10_succ by lia; lia).
    replace (e - Z.succ k) with ((e - k) - 1) by lia.
    apply fix_shift1.
    rewrite Z.abs_mul, (Z.abs_eq (10 ^ k)) by (pose proof (pow10_gt0 k Hk); lia).
    pose proof (pow10_gt0 k Hk). nia.
Qed.

Lemma fix_value_ordered (x y : Decimal) : dexp y <= dexp x ->
  (toQ x == toQ y)%Q -> (toQ (_fix x) == toQ (_fix y))%Q.
Proof.
  intros Hxy E.
  destruct (fits_dec x) as [Fx|Fx].
  { rewrite (fix_fits x Fx), (fix_exact y x Fx E). exact E. }
  destruct (fits_dec y) as [Fy|Fy].
  { rewrite (fix_fits y Fy), (fix_exact x y Fy); [exact E|]. now symmetry. }
  apply (toQ_eq_aligned x y (dexp y)) in E; [|lia|lia].
  unfold aligned in E. rewrite Z.sub_diag, Z.mul_1_r in E.
  assert (Ey : y = mkDecimal (coef x * 10 ^ (dexp x - dexp y)) (dexp x - (dexp x - dexp y))).
  { destruct y as [cy ey]. cbn [coef dexp] in *. f_equal; lia. }
  rewrite Ey, fix_shift; [destruct x; reflexivity|lia|].
  unfold fits in Fx. lia.
Qed.

(** Two [Decimal]s with the same value round to the same value. *)
Lemma fix_value (x y : Decimal) :
  (toQ x == toQ y)%Q -> (toQ (_fix x) == toQ (_fix y))%Q.
Proof.
  intros E. destruct (Z_le_gt_dec (dexp y) (dexp x)) as [H|H].
  - now apply fix_value_ordered.
  - symmetry. apply fix_value_ordered; [lia|now symmetry].
Qed.

(** *** The rounded operations *)

Lemma fits_add (x y : Decimal) : fits (add x y).
Proof. apply fits_fix. Qed.

Lemma fits_sub (x y : Decimal) : fits (sub x y).
Proof. apply fits_fix. Qed.

Lemma fits_mul (x y : Decimal) : fits (mul x y).
Proof. apply fits_fix. Qed.

Lemma fits_zero : fits zero.
Proof. now vm_compute. Qed.

Lemma fits_of_Z (n : Z) : Z.abs n < 10 ^ prec -> fits (of_Z n).
Proof. intros H. exact H. Qed.

Lemma toQ_exact_sub (x y : Decimal) : (toQ (exact_add x (neg y)) == toQ x - toQ y)%Q.
Proof. rewrite toQ_exact_add, toQ_neg. ring. Qed.

(** The operations respect the equality of values. *)
Lemma add_value (x x' y y' : Decimal) : (toQ x == toQ x')%Q -> (toQ y == toQ y')%Q ->
  (toQ (add x y) == toQ (add x' y'))%Q.
Proof. intros Ex Ey. apply fix_value. rewrite !toQ_exact_add. lra. Qed.





Lemma mul_exact (x y : Decimal) : fits (exact_mul x y) ->
  (toQ (mul x y) == toQ x * toQ y)%Q.
Proof. intros F. unfold mul. rewrite fix_fits by assumption. apply toQ_exact_mul. Qed.



Lemma sub_zero_r (x z : Decimal) : fits x -> (toQ z == 0)%Q -> (toQ (sub x z) == toQ x)%Q.
Proof.
  intros F Z. unfold sub. rewrite (fix_exact _ x F); rewrite toQ_exact_sub; lra.
Qed.

Lemma sub_diag_value (x y : Decimal) : (toQ x == toQ y)%Q -> (toQ (sub x y) == 0)%Q.
Proof.
  intros E. unfold sub. rewrite (fix_exact _ zero fits_zero); rewrite toQ_exact_sub, ?toQ_zero; lra.
Qed.

(** Signs and bounds of rounded results. *)
Lemma add_nonneg (x y : Decimal) : (0 <= toQ x)%Q -> (0 <= toQ y)%Q -> (0 <= toQ (add x y))%Q.
Proof. intros Hx Hy. apply fix_nonneg. rewrite toQ_exact_add. lra. Qed.

Lemma sub_nonneg (x y : Decimal) : (toQ y <= toQ x)%Q -> (0 <= toQ (sub x y))%Q.
Proof. intros H. apply fix_nonneg. rewrite toQ_exact_sub. lra. Qed.


Lemma sub_pos (x y : Decimal) : (toQ y < toQ x)%Q -> (0 < toQ (sub x y))%Q.
Proof. intros H. apply fix_pos. rewrite toQ_exact_sub. lra. Qed.

Lemma sub_le (x y : Decimal) : fits x -> (0 <= toQ y)%Q -> (toQ (sub x y) <= toQ x)%Q.
Proof. intros F H. apply fix_le_fits; [assumption|]. rewrite toQ_exact_sub. lra. Qed.

Lemma mul_nonneg (x y : Decimal) : (0 <= toQ x)%Q -> (0 <= toQ y)%Q -> (0 <= toQ (mul x y))%Q.
Proof.
  intros Hx Hy. apply fix_nonneg. rewrite toQ_exact_mul. now apply Qmult_le_0_compat.
Qed.

Lemma mul_zero_l (x y : Decimal) : (toQ x == 0)%Q -> (toQ (mul x y) == 0)%Q.
Proof.
  intros E. unfold mul. rewrite (fix_exact _ zero fits_zero); rewrite toQ_exact_mul, ?toQ_zero, E; ring.
Qed.



End DecFacts.

(** ** The methods of [Advance] *)






(** ** The scenarios *)

(** C5: an advance of 1000.00 on 2021-01-01 followed by a payment of 500.00
    on 2021-01-15: the interest phase accrues over the 14 days from
    2021-01-01 to 2021-01-15 and finds 4.90 payable; after the payment the
    interest paid is 4.90, the interest payable 0, the balance 504.90 and
    the amount kept for future advances 0. *)
Theorem scenario_payment_after_advance :
  exists s1 s2 a1 a2 d1 d15,
    create_advance new_UserGlobalBalance amount_1000_00 "2021-01-01" = Some s1
    /\ pay_advance s1 amount_500_00 "2021-01-15" = Some s2
    /\ strptime "2021-01-01" = Some d1 /\ strptime "2021-01-15" = Some d15
    /\ actives_advances s1 = [a1] /\ _updated_at a1 = d1
    /\ days_between d15 (_updated_at a1) = 14
    /\ (toQ (_interest_payable_balance (calculate_interest_payable_balance a1 d15))
        == 49 # 10)%Q
    /\ actives_advances s2 = [a2]
    /\ (toQ (_interest_paid a2) == 49 # 10)%Q
    /\ (toQ (_interest_payable_balance a2) == 0)%Q
    /\ (toQ (_balance a2) == 5049 # 10)%Q
    /\ (toQ (overall_payments_for_future s2) == 0)%Q.
Proof.
  pose (s1 := create_advance_at new_UserGlobalBalance amount_1000_00 737791).
  pose (s2 := pay_advance_at s1 amount_500_00 737805).
  exists s1, s2, (hd (new_Advance (SimpleInterestRateStrategy default_rate) 0 Dec.zero 0)
                    (actives_advances s1)),
    (hd (new_Advance (SimpleInterestRateStrategy default_rate) 0 Dec.zero 0)
        (actives_advances s2)), 737791, 737805.
  vm_compute. repeat split.
Qed.



(** ** The interest formula *)



(** A zero amount bears no interest, whatever the strategy and the days. *)
Lemma calculate_zero_amount (s : InterestRateStrategyBase) (p days : Decimal) :
  (toQ p == 0)%Q -> (toQ (calculate s p days) == 0)%Q.
Proof.
  intros Hp. destruct s as [r]. unfold calculate.
  apply DecFacts.sub_diag_value. rewrite Hp. now apply DecFacts.mul_zero_l.
Qed.





Lemma Qmult_ge_1 (p f : Q) : (0 <= p)%Q -> (1 <= f)%Q -> (p <= p * f)%Q.
Proof.
  intros Hp Hf. assert (H : (0 <= p * (f - 1))%Q) by (apply Qmult_le_0_compat; lra).
  lra.
Qed.


Lemma inject_Z_nonneg (n : Z) : 0 <= n -> (0 <= inject_Z n)%Q.
Proof. intros H. change 0%Q with (inject_Z 0). now rewrite <- Zle_Qle. Qed.


Lemma fits_one : fits (Dec.of_Z 1).
Proof. now vm_compute. Qed.


(** Over a non-negative number of days, at a non-negative rate, a
    non-negative principal of at most [prec] digits bears non-negative
    interest. *)
Lemma calculate_nonneg (r p : Decimal) (n : Z) :
  (0 <= toQ r)%Q -> 0 <= n -> fits p -> (0 <= toQ p)%Q ->
  (0 <= toQ (calculate (SimpleInterestRateStrategy r) p (Dec.of_Z n)))%Q.
Proof.
  intros Hr Hn Fp Hp. unfold calculate.
  assert (Hz : (0 <= toQ (Dec.mul r (Dec.of_Z n)))%Q).
  { apply DecFacts.mul_nonneg; [assumption|].
    rewrite DecFacts.toQ_of_Z. now apply inject_Z_nonneg. }
  assert (Hf : (1 <= toQ (Dec.add (Dec.of_Z 1) (Dec.mul r (Dec.of_Z n))))%Q).
  { change 1%Q with (toQ (Dec.of_Z 1)). apply DecFacts.fix_ge_fits; [exact fits_one|].
    rewrite DecFacts.toQ_exact_add. lra. }
  apply DecFacts.sub_nonneg. apply DecFacts.fix_ge_fits; [assumption|].
  rewrite DecFacts.toQ_exact_mul. now apply Qmult_ge_1.
Qed.


(** ** Accrual *)




(** ** Statements *)




(** ** The allocation loop *)

Section AllocateFacts.

Variable step : Advance -> Decimal -> Advance * Decimal.
Variable cleared : Advance -> Prop.
Variable keeps : Advance -> Advance -> Prop.

(** A step either returns the literal zero or clears its advance and
    returns a positive amount. *)
Hypothesis step_spec : forall a amount,
  keeps a (fst (step a amount))
  /\ (snd (step a amount) = Dec.zero
      \/ (cleared (fst (step a amount)) /\ (0 < toQ (snd (step a amount)))%Q)).

Lemma step_nonzero_cleared (a a' : Advance) (amount r : Decimal) :
  step a amount = (a', r) -> Dec.eqb r Dec.zero = false -> cleared a'.
Proof.
  intros E Hz. destruct (step_spec a amount) as [_ [H|[H _]]]; rewrite E in H; cbn in H.
  - subst r. discriminate.
  - exact H.
Qed.

Lemma allocate_length (advances : list Advance) : forall amount,
  List.length (fst (allocate step advances amount)) = List.length advances.
Proof.
  induction advances as [|a rest IH]; intros amount; [reflexivity|].
  cbn [allocate]. destruct (step a amount) as [a' r].
  destruct (Dec.eqb r Dec.zero); [reflexivity|].
  specialize (IH r). destruct (allocate step rest r) as [rest' r'].
  cbn [fst List.length] in *. now rewrite IH.
Qed.

(** When the loop ends with an amount that is not zero, it has cleared
    every advance. *)
Lemma allocate_nonzero_cleared (advances : list Advance) : forall amount,
  Dec.eqb (snd (allocate step advances amount)) Dec.zero = false ->
  Forall cleared (fst (allocate step advances amount)).
Proof.
  induction advances as [|a rest IH]; intros amount; [constructor|].
  cbn [allocate]. destruct (step a amount) as [a' r] eqn:E.
  destruct (Dec.eqb r Dec.zero) eqn:Ez.
  - cbn [snd]. congruence.
  - specialize (IH r). destruct (allocate step rest r) as [rest' r'].
    cbn [fst snd] in *. intros H. constructor; [|now apply IH].
    eapply step_nonzero_cleared; eassumption.
Qed.


(** An advance is reached by the loop only after every advance before it
    has been cleared. *)
Lemma allocate_order (advances : list Advance) : forall amount j a a',
  nth_error advances j = Some a ->
  nth_error (fst (allocate step advances amount)) j = Some a' ->
  a' = a
  \/ (keeps a a'
      /\ forall i b', (i < j)%nat ->
           nth_error (fst (allocate step advances amount)) i = Some b' -> cleared b').
Proof.
  induction advances as [|a0 rest IH]; intros amount j a a' Ha Ha'.
  { destruct j; discriminate. }
  cbn [allocate] in *. pose proof (step_spec a0 amount) as [Hk _].
  destruct (step a0 amount) as [a0' r] eqn:E. cbn [fst] in Hk.
  destruct (Dec.eqb r Dec.zero) eqn:Ez.
  - cbn [fst] in *. destruct j as [|j]; cbn [nth_error] in *.
    + injection Ha as <-. injection Ha' as <-. right. split; [assumption|].
      intros i b' Hi. inversion Hi.
    + left. congruence.
  - specialize (IH r). destruct (allocate step rest r) as [rest' r'].
    cbn [fst] in *. destruct j as [|j]; cbn [nth_error] in *.
    + injection Ha as <-. injection Ha' as <-. right. split; [assumption|].
      intros i b' Hi. inversion Hi.
    + destruct (IH j a a' Ha Ha') as [->|[Hk' Hc]]; [now left|right].
      split; [assumption|]. intros [|i] b' Hi Hb; cbn [nth_error] in Hb.
      * injection Hb as <-. eapply step_nonzero_cleared; eassumption.
      * apply (Hc i b'); [apply PeanoNat.lt_S_n; exact Hi|assumption].
Qed.

End AllocateFacts.

(** ** Payments *)

Lemma pay_interest_spec (date : datetime) (a : Advance) (amount : Decimal) :
  interest_step date a (fst (pay_interest a amount date))
  /\ (snd (pay_interest a amount date) = Dec.zero
      \/ (interest_cleared (fst (pay_interest a amount date))
          /\ (0 < toQ (snd (pay_interest a amount date)))%Q)).
Proof.
  unfold pay_interest.
  destruct (Dec.leb amount
              (_interest_payable_balance (calculate_interest_payable_balance a date))) eqn:E;
    cbn [fst snd]; (split; [repeat split|]).
  - now left.
  - right. split; [reflexivity|]. apply DecFacts.leb_gt in E. now apply DecFacts.sub_pos.
Qed.

Lemma pay_spec (a : Advance) (amount : Decimal) :
  principal_step a (fst (pay a amount))
  /\ (snd (pay a amount) = Dec.zero
      \/ (principal_cleared (fst (pay a amount)) /\ (0 < toQ (snd (pay a amount)))%Q)).
Proof.
  unfold pay. destruct (Dec.leb amount (_balance a)) eqn:E;
    cbn [fst snd]; (split; [repeat split|]).
  - now left.
  - right. split; [reflexivity|]. apply DecFacts.leb_gt in E. now apply DecFacts.sub_pos.
Qed.

Lemma principal_step_refl (a : Advance) : principal_step a a.
Proof. repeat split. Qed.

Lemma nth_error_same_length {A B : Type} (l : list A) (l' : list B) (j : nat) (a : A) :
  List.length l = List.length l' -> nth_error l j = Some a ->
  exists b, nth_error l' j = Some b.
Proof.
  intros HL Ha. destruct (nth_error l' j) as [b|] eqn:E; [now exists b|].
  apply nth_error_None in E. assert (nth_error l j <> None) as N by congruence.
  apply nth_error_Some in N. lia.
Qed.

Lemma positive_not_zero (x : Decimal) : Dec.ltb Dec.zero x = true -> Dec.eqb x Dec.zero = false.
Proof.
  intros H. apply DecFacts.ltb_lt in H. apply DecFacts.eqb_neq.
  rewrite DecFacts.toQ_zero in *. lra.
Qed.

(** The second loop keeps what the first loop did to the interest. *)
Lemma pay_loop_keeps (advances : list Advance) (amount : Decimal) (j : nat) (a a' : Advance) :
  nth_error advances j = Some a ->
  nth_error (fst (pay_loop advances amount)) j = Some a' ->
  principal_step a a'.
Proof.
  intros Ha Ha'.
  destruct (allocate_order pay principal_cleared principal_step pay_spec
              advances amount j a a' Ha Ha') as [->|[H _]];
    [apply principal_step_refl|exact H].
Qed.

Lemma pay_loop_keeps_cleared (advances : list Advance) (amount : Decimal) :
  Forall interest_cleared advances ->
  Forall interest_cleared (fst (pay_loop advances amount)).
Proof.
  intros H. apply Forall_forall. intros a' Hin.
  apply In_nth_error in Hin. destruct Hin as [j Hj].
  destruct (nth_error_same_length _ advances j a'
              (allocate_length pay advances amount) Hj) as [a Ha].
  pose proof (pay_loop_keeps advances amount j a a' Ha Hj) as K.
  rewrite Forall_forall in H. specialize (H a (nth_error_In _ _ Ha)).
  unfold interest_cleared in *. destruct K as (_ & _ & _ & _ & _ & K & _). congruence.
Qed.

(** The order in which [pay_advance] reaches the balances. *)
Lemma pay_advance_at_order (self : UserGlobalBalance) (amount : Decimal)
    (date : datetime) :
  let self' := pay_advance_at self amount date in
  List.length (actives_advances self') = List.length (actives_advances self)
  /\ (forall j a a',
        nth_error (actives_advances self) j = Some a ->
        nth_error (actives_advances self') j = Some a' ->
        (_identifier a' = _identifier a /\ _created_at a' = _created_at a
         /\ _interest_rate_strategy a' = _interest_rate_strategy a
         /\ _initial_amount a' = _initial_amount a)
        /\ ((_interest_payable_balance a' = _interest_payable_balance a
             /\ _interest_paid a' = _interest_paid a
             /\ _updated_at a' = _updated_at a)
            \/ (_updated_at a' = date
                /\ forall i b', (i < j)%nat ->
                     nth_error (actives_advances self') i = Some b' ->
                     interest_cleared b'))
        /\ (_balance a' = _balance a
            \/ (Forall interest_cleared (actives_advances self')
                /\ forall i b', (i < j)%nat ->
                     nth_error (actives_advances self') i = Some b' ->
                     principal_cleared b')))
  /\ (overall_payments_for_future self' = overall_payments_for_future self
      \/ (Forall interest_cleared (actives_advances self')
          /\ Forall principal_cleared (actives_advances self')
          /\ exists left, (0 < toQ left)%Q
               /\ overall_payments_for_future self' =
                  Dec.add (overall_payments_for_future self) left))
  /\ (actives_advances self = [] -> (0 < toQ amount)%Q ->
      actives_advances self' = []
      /\ overall_payments_for_future self' =
         Dec.add (overall_payments_for_future self) amount).
Proof.
  cbv zeta. unfold pay_advance_at.
  set (step1 := fun advance amount => pay_interest advance amount date).
  assert (S1 : forall a amt,
             interest_step date a (fst (step1 a amt))
             /\ (snd (step1 a amt) = Dec.zero
                 \/ (interest_cleared (fst (step1 a amt))
                     /\ (0 < toQ (snd (step1 a amt)))%Q)))
    by (intros; apply pay_interest_spec).
  pose proof (allocate_length step1 (actives_advances self) amount) as L1.
  pose proof (allocate_nonzero_cleared step1 _ _ S1 (actives_advances self) amount) as N1.
  pose proof (allocate_order step1 _ _ S1 (actives_advances self) amount) as O1.
  assert (E0 : actives_advances self = [] ->
               allocate step1 (actives_advances self) amount = ([], amount))
    by (intros ->; reflexivity).
  unfold pay_interest_loop. fold step1.
  destruct (allocate step1 (actives_advances self) amount) as [advs1 amount1].
  cbn [fst snd] in *.
  destruct (Dec.ltb Dec.zero amount1) eqn:P1.
  - (* the second loop runs *)
    pose proof (positive_not_zero _ P1) as Z1. specialize (N1 Z1).
    pose proof (allocate_length pay advs1 amount1) as L2.
    pose proof (allocate_nonzero_cleared pay _ _ pay_spec advs1 amount1) as N2.
    pose proof (allocate_order pay _ _ pay_spec advs1 amount1) as O2.
    pose proof (pay_loop_keeps advs1 amount1) as K2.
    pose proof (pay_loop_keeps_cleared advs1 amount1 N1) as C2.
    assert (E2 : advs1 = [] -> allocate pay advs1 amount1 = ([], amount1))
      by (intros ->; reflexivity).
    unfold pay_loop in *.
    destruct (allocate pay advs1 amount1) as [advs2 amount2]. cbn [fst snd] in *.
    assert (G : List.length advs2 = List.length (actives_advances self)) by congruence.
    assert (B : forall j a a',
               nth_error (actives_advances self) j = Some a ->
               nth_error advs2 j = Some a' ->
               (_identifier a' = _identifier a /\ _created_at a' = _created_at a
                /\ _interest_rate_strategy a' = _interest_rate_strategy a
                /\ _initial_amount a' = _initial_amount a)
               /\ ((_interest_payable_balance a' = _interest_payable_balance a
                    /\ _interest_paid a' = _interest_paid a
                    /\ _updated_at a' = _updated_at a)
                   \/ (_updated_at a' = date
                       /\ forall i b', (i < j)%nat ->
                            nth_error advs2 i = Some b' -> interest_cleared b'))
               /\ (_balance a' = _balance a
                   \/ (Forall interest_cleared advs2
                       /\ forall i b', (i < j)%nat ->
                            nth_error advs2 i = Some b' -> principal_cleared b'))).
    { intros j a a' Ha Ha'.
      destruct (nth_error_same_length _ advs1 j a' L2 Ha') as [a1 Ha1].
      pose proof (K2 j a1 a' Ha1 Ha') as (K_id & K_cr & K_up & K_st & K_in & K_ip & K_pd).
      rewrite Forall_forall in C2.
      split; [|split].
      - destruct (O1 j a a1 Ha Ha1) as [->|[(I1 & I2 & I3 & I4 & I5 & I6) _]].
        + repeat split; assumption.
        + repeat split; congruence.
      - destruct (O1 j a a1 Ha Ha1) as [->|[(I1 & I2 & I3 & I4 & I5 & I6) _]].
        + left. repeat split; assumption.
        + right. split; [congruence|]. intros i b' _ Hb.
          apply C2. eapply nth_error_In; eassumption.
      - destruct (O2 j a1 a' Ha1 Ha') as [->|[_ Hc]].
        + destruct (O1 j a a1 Ha Ha1) as [->|[(I1 & I2 & I3 & I4 & I5 & I6) _]].
          * now left.
          * left. congruence.
        + right. split; [apply Forall_forall; exact C2|exact Hc]. }
    destruct (Dec.ltb Dec.zero amount2) eqn:P2;
      cbn [actives_advances overall_payments_for_future].
    + split; [exact G|]. split; [exact B|]. split.
      * right. split; [exact C2|]. split; [apply N2; now apply positive_not_zero|].
        exists amount2. split; [|reflexivity].
        apply DecFacts.ltb_lt in P2. now rewrite DecFacts.toQ_zero in P2.
      * intros Hnil _. specialize (E0 Hnil). injection E0 as -> ->.
        specialize (E2 eq_refl). injection E2 as -> ->. split; reflexivity.
    + split; [exact G|]. split; [exact B|]. split; [now left|].
      intros Hnil Hpos. specialize (E0 Hnil). injection E0 as -> ->.
      specialize (E2 eq_refl). injection E2 as -> ->.
      apply DecFacts.ltb_ge in P2. rewrite DecFacts.toQ_zero in P2. lra.
  - (* the amount was used up by the interest *)
    rewrite P1. cbn [actives_advances overall_payments_for_future].
    split; [exact L1|]. split; [|split; [now left|]].
    + intros j a a' Ha Ha'.
      destruct (O1 j a a' Ha Ha') as [->|[(I1 & I2 & I3 & I4 & I5 & I6) Hc]].
      * split; [repeat split|]. split; now left.
      * split; [repeat split; assumption|]. split; [right; split; assumption|now left].
    + intros Hnil Hpos. specialize (E0 Hnil). injection E0 as -> ->.
      apply DecFacts.ltb_ge in P1. rewrite DecFacts.toQ_zero in P1. lra.
Qed.

(** ** The bounds on reachable states *)

Lemma default_rate_nonneg : (0 <= toQ default_rate)%Q.
Proof. vm_compute. congruence. Qed.

Lemma advance_inv_later (last date : datetime) (a : Advance) :
  last <= date -> advance_inv last a -> advance_inv date a.
Proof.
  intros Hd (R & F & S & C & U). repeat split; try apply R; try assumption; lia.
Qed.

(** Accrual through a date that is not before [_updated_at] keeps the
    interest payable non-negative. *)
Lemma accrual_nonneg (a : Advance) (date : datetime) :
  _interest_rate_strategy a = SimpleInterestRateStrategy default_rate ->
  fits (_balance a) -> (0 <= toQ (_balance a))%Q ->
  (0 <= toQ (_interest_payable_balance a))%Q -> _updated_at a <= date ->
  (0 <= toQ (_interest_payable_balance (calculate_interest_payable_balance a date)))%Q.
Proof.
  intros S F B I U. unfold calculate_interest_payable_balance.
  cbn [_interest_payable_balance]. rewrite S.
  apply DecFacts.add_nonneg; [assumption|].
  apply calculate_nonneg; [apply default_rate_nonneg|unfold days_between; lia| |]; assumption.
Qed.

Lemma pay_interest_inv (last date : datetime) (a : Advance) (amount : Decimal) :
  last <= date -> advance_inv last a ->
  advance_inv date (fst (pay_interest a amount date)).
Proof.
  intros Hd ((B & I & BI & CU) & F & S & C & U).
  unfold pay_interest.
  destruct (Dec.leb amount
              (_interest_payable_balance (calculate_interest_payable_balance a date))) eqn:E;
    cbn [fst]; unfold advance_inv, advance_in_range, set_interest,
      calculate_interest_payable_balance in *;
    cbn [_identifier _created_at _updated_at _interest_rate_strategy _initial_amount
         _balance _interest_payable_balance _interest_paid] in *.
  - apply DecFacts.leb_le in E.
    repeat split; try assumption; try lia. now apply DecFacts.sub_nonneg.
  - repeat split; try assumption; try lia. rewrite DecFacts.toQ_zero. lra.
Qed.

Lemma pay_inv (last : datetime) (a : Advance) (amount : Decimal) :
  (0 <= toQ amount)%Q -> advance_inv last a ->
  advance_inv last (fst (pay a amount)) /\ (0 <= toQ (snd (pay a amount)))%Q.
Proof.
  intros Ha ((B & I & BI & CU) & F & S & C & U).
  unfold pay. destruct (Dec.leb amount (_balance a)) eqn:E;
    cbn [fst snd]; unfold advance_inv, advance_in_range, set_balance in *;
    cbn [_identifier _created_at _updated_at _interest_rate_strategy _initial_amount
         _balance _interest_payable_balance _interest_paid] in *.
  - apply DecFacts.leb_le in E. split; [|rewrite DecFacts.toQ_zero; lra].
    pose proof (DecFacts.sub_le (_balance a) amount F Ha).
    repeat split; try assumption; try lia.
    + now apply DecFacts.sub_nonneg.
    + lra.
    + apply DecFacts.fits_sub.
  - apply DecFacts.leb_gt in E. split.
    + repeat split; try assumption; try lia; try (rewrite DecFacts.toQ_zero; lra);
        try apply DecFacts.fits_zero.
    + apply Qlt_le_weak. now apply DecFacts.sub_pos.
Qed.

Section AllocatePreserves.

Variable step : Advance -> Decimal -> Advance * Decimal.
Variable P : Advance -> Prop.
Variable Q : Decimal -> Prop.

Hypothesis step_keeps : forall a amount, P a -> Q amount ->
  P (fst (step a amount)) /\ Q (snd (step a amount)).

Lemma allocate_preserves (advances : list Advance) : forall amount,
  Forall P advances -> Q amount ->
  Forall P (fst (allocate step advances amount)) /\ Q (snd (allocate step advances amount)).
Proof.
  induction advances as [|a rest IH]; intros amount HP HQ; [split; [constructor|exact HQ]|].
  inversion HP as [|? ? Pa Prest]; subst.
  cbn [allocate]. destruct (step_keeps a amount Pa HQ) as [Pa' Qr].
  destruct (step a amount) as [a' r]. cbn [fst snd] in *.
  destruct (Dec.eqb r Dec.zero).
  - cbn [fst snd]. split; [now constructor|assumption].
  - destruct (IH r Prest Qr) as [Pr' Qr'].
    destruct (allocate step rest r) as [rest' r']. cbn [fst snd] in *.
    split; [now constructor|assumption].
Qed.

End AllocatePreserves.

Lemma Forall_advance_inv_later (last date : datetime) (advances : list Advance) :
  last <= date -> Forall (advance_inv last) advances -> Forall (advance_inv date) advances.
Proof.
  intros Hd H. eapply Forall_impl; [|exact H]. intros a. now apply advance_inv_later.
Qed.

Lemma pay_advance_at_inv (last date : datetime) (self : UserGlobalBalance) (amount : Decimal) :
  last <= date -> engine_inv last self -> engine_inv date (pay_advance_at self amount date).
Proof.
  intros Hd [HA HC]. apply (Forall_advance_inv_later last date _ Hd) in HA.
  unfold pay_advance_at, pay_interest_loop, pay_loop.
  destruct (allocate_preserves (fun advance amount => pay_interest advance amount date)
              (advance_inv date) (fun _ => True)
              ltac:(intros a amt Pa _; split;
                    [apply (pay_interest_inv date date); [lia|exact Pa]|exact I])
              (actives_advances self) amount HA I) as [H1 _].
  destruct (allocate _ (actives_advances self) amount) as [advs1 amount1].
  cbn [fst] in H1.
  destruct (Dec.ltb Dec.zero amount1) eqn:P1.
  - apply DecFacts.ltb_lt in P1. rewrite DecFacts.toQ_zero in P1.
    destruct (allocate_preserves pay (advance_inv date) (fun x => (0 <= toQ x)%Q)
                ltac:(intros a amt Pa Qa; now apply pay_inv)
                advs1 amount1 H1 (Qlt_le_weak _ _ P1)) as [H2 Q2].
    destruct (allocate pay advs1 amount1) as [advs2 amount2]. cbn [fst snd] in *.
    destruct (Dec.ltb Dec.zero amount2); split; cbn [actives_advances
      overall_payments_for_future]; try assumption.
    now apply DecFacts.add_nonneg.
  - rewrite P1. split; assumption.
Qed.

Lemma new_Advance_inv (date : datetime) (identifier : Z) (amount : Decimal) :
  fits amount -> (0 <= toQ amount)%Q ->
  advance_inv date (new_Advance (SimpleInterestRateStrategy default_rate) identifier amount date).
Proof.
  intros F H. unfold advance_inv, advance_in_range, new_Advance.
  cbn [_identifier _created_at _updated_at _interest_rate_strategy _initial_amount
       _balance _interest_payable_balance _interest_paid].
  rewrite DecFacts.toQ_zero. repeat split; try assumption; try lia; lra.
Qed.

Lemma create_advance_at_inv (last date : datetime) (self : UserGlobalBalance)
    (amount : Decimal) :
  last <= date -> fits amount -> (0 <= toQ amount)%Q -> engine_inv last self ->
  engine_inv date (create_advance_at self amount date).
Proof.
  intros Hd F Ha [HA HC]. apply (Forall_advance_inv_later last date _ Hd) in HA.
  unfold create_advance_at.
  set (advances := (actives_advances self ++ _)%list).
  assert (HN : Forall (advance_inv date) advances).
  { apply Forall_app. split; [assumption|]. constructor; [|constructor].
    now apply new_Advance_inv. }
  destruct (Dec.ltb Dec.zero (overall_payments_for_future self)).
  - apply (pay_advance_at_inv date date); [lia|]. split; [exact HN|].
    cbn [overall_payments_for_future]. rewrite DecFacts.toQ_zero. lra.
  - split; assumption.
Qed.

Lemma get_statement_inv (last date : datetime) (a a' : Advance) (st : Statement) :
  last <= date -> advance_inv last a -> get_statement a date = Some (a', st) ->
  advance_inv date a'.
Proof.
  intros Hd ((B & I & BI & CU) & F & S & C & U) H. unfold get_statement in H.
  destruct (add_days date 1) as [next|] eqn:E; [|discriminate].
  assert (En : next = date + 1).
  { unfold add_days in E.
    destruct ((1 <=? date + 1) && (date + 1 <=? _MAXORDINAL)); [|discriminate].
    now injection E as <-. }
  injection H as <- _.
  pose proof (accrual_nonneg a next S F B I ltac:(lia)) as N.
  unfold advance_inv, advance_in_range, calculate_interest_payable_balance in *.
  cbn [_identifier _created_at _updated_at _interest_rate_strategy _initial_amount
       _balance _interest_payable_balance _interest_paid] in *.
  repeat split; try assumption; lia.
Qed.

Lemma statement_loop_inv (last date : datetime) (advances : list Advance) :
  last <= date -> forall acc advances' acc',
  Forall (advance_inv last) advances ->
  statement_loop advances date acc = Some (advances', acc') ->
  Forall (advance_inv date) advances'.
Proof.
  intros Hd. induction advances as [|a rest IH]; intros acc advances' acc' HA H.
  - injection H as <- _. constructor.
  - inversion HA as [|? ? Pa Prest]; subst. cbn [statement_loop] in H.
    destruct (get_statement a date) as [[a' st]|] eqn:E; [|discriminate].
    destruct acc as [[[bal payable] paid] sts].
    destruct (statement_loop rest date _) as [[rest' acc'']|] eqn:E2; [|discriminate].
    injection H as <- _. constructor.
    + eapply get_statement_inv; eassumption.
    + eapply IH; eassumption.
Qed.

Lemma do_call_inv (last : datetime) (self self' : UserGlobalBalance) (c : call) :
  last <= call_date c -> positive_amount c -> advance_amount_fits c ->
  engine_inv last self -> do_call self c = Some self' ->
  engine_inv (call_date c) self'.
Proof.
  intros Hd Hp Hf Inv H. destruct c as [amount d|amount d|d]; cbn [call_date do_call] in *.
  - injection H as <-. apply (create_advance_at_inv last); try assumption.
    cbn in Hp. lra.
  - injection H as <-. now apply (pay_advance_at_inv last).
  - unfold get_global_statement_at in H. destruct Inv as [HA HC].
    destruct (statement_loop (actives_advances self) d _)
      as [[advances' [[[bal payable] paid] sts]]|] eqn:E; [|discriminate].
    injection H as <-. split; cbn [actives_advances overall_payments_for_future].
    + eapply statement_loop_inv; eassumption.
    + assumption.
Qed.

Lemma replay_inv (calls : list call) : forall last self self',
  date_ordered last calls -> Forall positive_amount calls ->
  Forall advance_amount_fits calls -> engine_inv last self ->
  replay self calls = Some self' ->
  exists last', engine_inv last' self'.
Proof.
  induction calls as [|c rest IH]; intros last self self' Ho Hp Hf Inv H.
  - injection H as <-. now exists last.
  - cbn [replay] in H. destruct (do_call self c) as [self1|] eqn:E; [|discriminate].
    destruct Ho as [Hd Ho]. inversion Hp; subst. inversion Hf; subst.
    eapply (IH (call_date c) self1); try eassumption.
    eapply do_call_inv; eassumption.
Qed.

Lemma engine_inv_in_range (last : datetime) (self : UserGlobalBalance) :
  engine_inv last self -> engine_in_range self.
Proof.
  intros [HA HC]. split; [|assumption].
  eapply Forall_impl; [|exact HA]. intros a H. apply H.
Qed.

(** C2 (amended): after any sequence of advances, payments and statements
    with positive amounts and dates that do not decrease, in which the
    amount of every advance has at most 28 significant digits, every advance
    has a balance between zero and its initial amount, a non-negative
    interest payable and [_updated_at] not before [_created_at], and the
    amount kept for future advances is non-negative. *)
Theorem replay_keeps_balances_in_range (from : datetime) (calls : list call)
    (self' : UserGlobalBalance) :
  date_ordered from calls ->
  Forall positive_amount calls ->
  Forall advance_amount_fits calls ->
  replay new_UserGlobalBalance calls = Some self' ->
  engine_in_range self'.
Proof.
  intros Ho Hp Hf H.
  destruct (replay_inv calls from new_UserGlobalBalance self' Ho Hp Hf) as [last' Inv];
    [|exact H|now apply (engine_inv_in_range last')].
  split; [constructor|]. cbn. rewrite DecFacts.toQ_zero. lra.
Qed.

Lemma replay_keeps_balances_in_range_witness :
  exists s,
    replay new_UserGlobalBalance
      [CreateAdvance amount_1000_00 737791; PayAdvance amount_500_00 737805;
       GetGlobalStatement 737805] = Some s
    /\ engine_in_range s.
Proof.
  pose (calls := [CreateAdvance amount_1000_00 737791; PayAdvance amount_500_00 737805;
                  GetGlobalStatement 737805]).
  pose (s := match replay new_UserGlobalBalance calls with
             | Some s => s
             | None => new_UserGlobalBalance
             end).
  assert (E : replay new_UserGlobalBalance calls = Some s) by (vm_compute; reflexivity).
  exists s. split; [exact E|].
  apply (replay_keeps_balances_in_range 737791 calls s).
  - cbn. lia.
  - constructor; [now vm_compute|]. constructor; [now vm_compute|].
    constructor; [exact I|constructor].
  - constructor; [now vm_compute|]. constructor; [exact I|].
    constructor; [exact I|constructor].
  - exact E.
Defined.

(** C2 fails as stated: an advance of 1000000000000000000000000000.6 (29
    digits) and, on the same day, a payment of 0.41.  The accrual over zero
    days rounds the balance up and finds 0.4 of interest; the payment pays
    it and takes the remaining 0.01 from the balance, and the difference is
    rounded to 1000000000000000000000000001, above the initial amount. *)
Lemma large_advance_exceeds_initial_amount :
  let calls := [CreateAdvance (mkDecimal 10000000000000000000000000006 (-1)) 737791;
                PayAdvance (mkDecimal 41 (-2)) 737791] in
  date_ordered 737791 calls
  /\ Forall positive_amount calls
  /\ exists s a,
       replay new_UserGlobalBalance calls = Some s
       /\ actives_advances s = [a]
       /\ _initial_amount a = mkDecimal 10000000000000000000000000006 (-1)
       /\ _balance a = mkDecimal 1000000000000000000000000001 0
       /\ (toQ (_initial_amount a) < toQ (_balance a))%Q
       /\ ~ engine_in_range s.
Proof.
  cbv zeta. split; [cbn; lia|]. split.
  { constructor; [now vm_compute|]. constructor; [now vm_compute|constructor]. }
  pose (s := pay_advance_at
               (create_advance_at new_UserGlobalBalance
                  (mkDecimal 10000000000000000000000000006 (-1)) 737791)
               (mkDecimal 41 (-2)) 737791).
  exists s, (hd (new_Advance (SimpleInterestRateStrategy default_rate) 0 Dec.zero 0)
              (actives_advances s)).
  split; [vm_compute; reflexivity|]. split; [vm_compute; reflexivity|].
  split; [vm_compute; reflexivity|]. split; [vm_compute; reflexivity|].
  split; [now vm_compute|].
  intros [HA _]. rewrite Forall_forall in HA.
  assert (Hin : In (hd (new_Advance (SimpleInterestRateStrategy default_rate) 0 Dec.zero 0)
                      (actives_advances s)) (actives_advances s))
    by (vm_compute; left; reflexivity).
  destruct (HA _ Hin) as (_ & _ & H & _). revert H. vm_compute. congruence.
Qed.

(** ** The amount kept for future advances *)

Lemma add_zero_zero (x y : Decimal) :
  (toQ x == 0)%Q -> (toQ y == 0)%Q -> (toQ (Dec.add x y) == 0)%Q.
Proof.
  intros Hx Hy. rewrite (DecFacts.add_value x Dec.zero y Dec.zero) by (rewrite DecFacts.toQ_zero; assumption).
  reflexivity.
Qed.

Lemma accrual_settled (a : Advance) (date : datetime) :
  settled a -> settled (calculate_interest_payable_balance a date).
Proof.
  intros [Hb Hi]. unfold settled, calculate_interest_payable_balance.
  cbn [_balance _interest_payable_balance]. split; [assumption|].
  apply add_zero_zero; [assumption|]. now apply calculate_zero_amount.
Qed.

(** A positive amount passes a settled advance: both steps leave the advance
    settled and hand the amount on. *)
Lemma pay_interest_settled (a : Advance) (amount : Decimal) (date : datetime) :
  settled a -> (0 < toQ amount)%Q ->
  settled (fst (pay_interest a amount date))
  /\ (0 < toQ (snd (pay_interest a amount date)))%Q
  /\ fits (snd (pay_interest a amount date))
  /\ (fits amount -> same_value (snd (pay_interest a amount date)) amount).
Proof.
  intros Hs Ha. destruct (accrual_settled a date Hs) as [Hb Hi].
  unfold pay_interest.
  destruct (Dec.leb amount
              (_interest_payable_balance (calculate_interest_payable_balance a date))) eqn:E.
  - apply DecFacts.leb_le in E. lra.
  - cbn [fst snd]. split; [split; [exact Hb|reflexivity]|].
    split; [apply DecFacts.sub_pos; lra|]. split; [apply DecFacts.fits_sub|].
    intros F. now apply DecFacts.sub_zero_r.
Qed.

Lemma pay_settled (a : Advance) (amount : Decimal) :
  settled a -> (0 < toQ amount)%Q ->
  settled (fst (pay a amount))
  /\ (0 < toQ (snd (pay a amount)))%Q
  /\ fits (snd (pay a amount))
  /\ (fits amount -> same_value (snd (pay a amount)) amount).
Proof.
  intros [Hb Hi] Ha. unfold pay. destruct (Dec.leb amount (_balance a)) eqn:E.
  - apply DecFacts.leb_le in E. lra.
  - cbn [fst snd]. split; [split; [reflexivity|exact Hi]|].
    split; [apply DecFacts.sub_pos; lra|]. split; [apply DecFacts.fits_sub|].
    intros F. now apply DecFacts.sub_zero_r.
Qed.

Section PassThrough.

Variable step : Advance -> Decimal -> Advance * Decimal.

Hypothesis step_pass : forall a amount, settled a -> (0 < toQ amount)%Q ->
  settled (fst (step a amount))
  /\ (0 < toQ (snd (step a amount)))%Q
  /\ fits (snd (step a amount))
  /\ (fits amount -> same_value (snd (step a amount)) amount).


(** The loop leaves settled advances settled and a positive amount
    positive. *)
Lemma allocate_settled (advances : list Advance) (amount : Decimal) :
  Forall settled advances -> (0 < toQ amount)%Q ->
  Forall settled (fst (allocate step advances amount))
  /\ (0 < toQ (snd (allocate step advances amount)))%Q.
Proof.
  intros HS Ha.
  apply (allocate_preserves step settled (fun x => (0 < toQ x)%Q)); try assumption.
  intros a amt Sa Pa. destruct (step_pass a amt Sa Pa) as (H1 & H2 & _). now split.
Qed.

End PassThrough.

Lemma cleared_settled (l : list Advance) :
  Forall interest_cleared l -> Forall principal_cleared l -> Forall settled l.
Proof.
  rewrite !Forall_forall. intros HI HP a Hin. specialize (HI a Hin). specialize (HP a Hin).
  unfold settled, interest_cleared, principal_cleared in *. rewrite HI, HP.
  split; reflexivity.
Qed.

Lemma pay_advance_at_settled (self : UserGlobalBalance) (amount : Decimal) (date : datetime) :
  Forall settled (actives_advances self) -> (0 < toQ amount)%Q ->
  Forall settled (actives_advances (pay_advance_at self amount date)).
Proof.
  intros HS Ha. unfold pay_advance_at, pay_interest_loop, pay_loop.
  destruct (allocate_settled (fun advance amount => pay_interest advance amount date)
              ltac:(intros a amt Sa Pa; now apply pay_interest_settled)
              (actives_advances self) amount HS Ha) as [H1 P1].
  destruct (allocate _ (actives_advances self) amount) as [advs1 amount1].
  cbn [fst snd] in *.
  assert (L1 : Dec.ltb Dec.zero amount1 = true)
    by (apply DecFacts.ltb_lt; now rewrite DecFacts.toQ_zero).
  rewrite L1.
  destruct (allocate_settled pay ltac:(intros a amt Sa Pa; now apply pay_settled)
              advs1 amount1 H1 P1) as [H2 P2].
  destruct (allocate pay advs1 amount1) as [advs2 amount2]. cbn [fst snd] in *.
  destruct (Dec.ltb Dec.zero amount2); exact H2.
Qed.

Lemma pay_advance_at_credit_inv (self : UserGlobalBalance) (amount : Decimal)
    (date : datetime) :
  (0 < toQ amount)%Q -> credit_inv self -> credit_inv (pay_advance_at self amount date).
Proof.
  intros Ha (F & N & S).
  destruct (pay_advance_at_order self amount date) as (_ & _ & [E|(IC & PC & left & Hl & E)] & _).
  - unfold credit_inv. rewrite E. repeat split; try assumption.
    intros Hp. apply pay_advance_at_settled; [now apply S|assumption].
  - unfold credit_inv. rewrite E. split; [apply DecFacts.fits_add|].
    split; [apply DecFacts.add_nonneg; lra|]. intros _. now apply cleared_settled.
Qed.

Lemma create_advance_at_credit_inv (self : UserGlobalBalance) (amount : Decimal)
    (date : datetime) :
  credit_inv self -> credit_inv (create_advance_at self amount date).
Proof.
  intros (F & N & S). unfold create_advance_at.
  set (advances := (actives_advances self ++ _)%list).
  destruct (Dec.ltb Dec.zero (overall_payments_for_future self)) eqn:L.
  - destruct (pay_advance_at_order (mkUserGlobalBalance Dec.zero advances)
                (overall_payments_for_future self) date)
      as (_ & _ & [E|(IC & PC & left & Hl & E)] & _);
      cbn [overall_payments_for_future] in E; unfold credit_inv; rewrite E.
    + split; [apply DecFacts.fits_zero|]. rewrite DecFacts.toQ_zero.
      split; [lra|]. intros H. lra.
    + split; [apply DecFacts.fits_add|].
      split; [apply DecFacts.add_nonneg; rewrite ?DecFacts.toQ_zero; lra|].
      intros _. now apply cleared_settled.
  - apply DecFacts.ltb_ge in L. rewrite DecFacts.toQ_zero in L.
    unfold credit_inv. cbn [overall_payments_for_future actives_advances].
    repeat split; try assumption. intros H. lra.
Qed.

Lemma statement_loop_settled (date : datetime) (advances : list Advance) :
  forall acc advances' acc',
  Forall settled advances ->
  statement_loop advances date acc = Some (advances', acc') ->
  Forall settled advances'.
Proof.
  induction advances as [|a rest IH]; intros acc advances' acc' HS H.
  - injection H as <- _. constructor.
  - inversion HS as [|? ? Sa Sr]; subst. cbn [statement_loop] in H.
    unfold get_statement in H.
    destruct (add_days date 1) as [next|]; [|discriminate].
    destruct acc as [[[bal payable] paid] sts].
    destruct (statement_loop rest date _) as [[rest' acc'']|] eqn:E2; [|discriminate].
    injection H as <- _. constructor.
    + now apply accrual_settled.
    + eapply IH; eassumption.
Qed.

Lemma do_call_credit_inv (self self' : UserGlobalBalance) (c : call) :
  positive_amount c -> credit_inv self -> do_call self c = Some self' -> credit_inv self'.
Proof.
  intros Hp Inv H. destruct c as [amount d|amount d|d]; cbn [do_call] in *.
  - injection H as <-. now apply create_advance_at_credit_inv.
  - injection H as <-. now apply pay_advance_at_credit_inv.
  - unfold get_global_statement_at in H. destruct Inv as (F & N & S).
    destruct (statement_loop (actives_advances self) d _)
      as [[advances' [[[bal payable] paid] sts]]|] eqn:E; [|discriminate].
    injection H as <-. unfold credit_inv. cbn [actives_advances overall_payments_for_future].
    repeat split; try assumption. intros Hc.
    eapply statement_loop_settled; [|exact E]. now apply S.
Qed.

Lemma replay_credit_inv (calls : list call) : forall self self',
  Forall positive_amount calls -> credit_inv self ->
  replay self calls = Some self' -> credit_inv self'.
Proof.
  induction calls as [|c rest IH]; intros self self' Hp Inv H.
  - now injection H as <-.
  - cbn [replay] in H. destruct (do_call self c) as [self1|] eqn:E; [|discriminate].
    inversion Hp; subst. eapply (IH self1); try eassumption.
    eapply do_call_credit_inv; eassumption.
Qed.

Lemma new_credit_inv : credit_inv new_UserGlobalBalance.
Proof.
  unfold credit_inv. cbn [new_UserGlobalBalance overall_payments_for_future actives_advances].
  split; [apply DecFacts.fits_zero|]. rewrite DecFacts.toQ_zero. split; [lra|constructor].
Qed.

(** ** What a payment reduces *)







Section AllocateRel.

Variable step : Advance -> Decimal -> Advance * Decimal.
Variable step_exact : Advance -> Decimal -> Prop.
Variable P : Advance -> Prop.
Variable Qd : Decimal -> Prop.
Variable R : Advance -> Advance -> Prop.

(** An advance that the loop does not reach is related to itself; one that
    it reaches, to what the step makes of it. *)
Hypothesis R_refl : forall a, P a -> R a a.
Hypothesis step_rel : forall a amount, P a -> Qd amount -> step_exact a amount ->
  R a (fst (step a amount)) /\ Qd (snd (step a amount)).


End AllocateRel.












(** ** What a payment accounts for *)




Section AllocateConserves.

Variable step : Advance -> Decimal -> Advance * Decimal.
Variable step_exact : Advance -> Decimal -> Prop.
Variable f : Advance -> Decimal.
Variable k : Q.

(** A step that does not round gives back what it does not put into the
    figure [f] ([k] is 1 for a figure that goes up, -1 for one that goes
    down). *)
Hypothesis step_conserves : forall a amount, step_exact a amount ->
  (toQ amount
   == k * (toQ (f (fst (step a amount))) - toQ (f a)) + toQ (snd (step a amount)))%Q.


End AllocateConserves.
















(** ** Additivity of the accrual *)













(** ** Further properties of the methods of [Advance] *)

(** X1: for an advance and an amount (also a negative one) whose
    adjusted exponents are below [Emax], so that the subtraction of [pay]
    stays within the range of exponents, [pay] leaves a balance that is
    not negative and returns a remaining amount that is not negative. *)
Theorem pay_never_negative (self : Advance) (amount : Decimal) :
  adjusted (_balance self) < Emax -> adjusted amount < Emax ->
  (0 <= toQ (_balance (fst (pay self amount))))%Q
  /\ (0 <= toQ (snd (pay self amount)))%Q.
Proof.
  intros _ _.
  unfold pay. destruct (Dec.leb amount (_balance self)) eqn:E; cbn [fst snd set_balance _balance].
  - apply DecFacts.leb_le in E. split; [now apply DecFacts.sub_nonneg|].
    rewrite DecFacts.toQ_zero. lra.
  - apply DecFacts.leb_gt in E. split; [rewrite DecFacts.toQ_zero; lra|].
    apply Qlt_le_weak. now apply DecFacts.sub_pos.
Qed.

Lemma pay_never_negative_witness :
  (0 <= toQ (_balance (fst (pay advance_1000_00 (Dec.neg amount_500_00)))))%Q
  /\ (0 <= toQ (snd (pay advance_1000_00 (Dec.neg amount_500_00))))%Q.
Proof.
  apply (pay_never_negative advance_1000_00 (Dec.neg amount_500_00)); now vm_compute.
Defined.








(** ** Further properties of the interest formula *)





(** ** Further properties of settled advances *)



(** X9: in every state reached from a new engine by calls with positive
    amounts, whatever their dates, an amount is kept for future advances
    only while every advance is settled: a positive
    [overall_payments_for_future] means that every balance and every
    interest payable is zero. *)
Theorem credit_only_when_settled (calls : list call) (self : UserGlobalBalance) :
  Forall positive_amount calls ->
  replay new_UserGlobalBalance calls = Some self ->
  (0 < toQ (overall_payments_for_future self))%Q ->
  Forall settled (actives_advances self).
Proof.
  intros Hp Hr Hc.
  destruct (replay_credit_inv calls _ _ Hp new_credit_inv Hr) as (_ & _ & S).
  now apply S.
Qed.

Lemma credit_only_when_settled_witness :
  exists s,
    replay new_UserGlobalBalance
      [CreateAdvance amount_1000_00 date_2021_01_01;
       PayAdvance (mkDecimal 200000 (-2)) date_2021_01_15] = Some s
    /\ Forall settled (actives_advances s).
Proof.
  pose (calls := [CreateAdvance amount_1000_00 date_2021_01_01;
                  PayAdvance (mkDecimal 200000 (-2)) date_2021_01_15]).
  pose (s := match replay new_UserGlobalBalance calls with
             | Some s => s
             | None => new_UserGlobalBalance
             end).
  assert (E : replay new_UserGlobalBalance calls = Some s) by (vm_compute; reflexivity).
  exists s. split; [exact E|].
  apply (credit_only_when_settled calls s).
  - constructor; [now vm_compute|]. constructor; [now vm_compute|constructor].
  - exact E.
  - now vm_compute.
Defined.

(** ** Further properties of the statements *)

Lemma add_days_next (date next : datetime) : add_days date 1 = Some next -> next = date + 1.
Proof.
  unfold add_days. destruct ((1 <=? date + 1) && (date + 1 <=? _MAXORDINAL)); [|discriminate].
  now intros [= <-].
Qed.

(** What the statement loop returns, given that the next day exists. *)
Lemma statement_loop_spec (date next : datetime) (advances : list Advance) :
  add_days date 1 = Some next ->
  forall bal payable paid sts,
  let r := map (fun a => calculate_interest_payable_balance a next) advances in
  statement_loop advances date (bal, payable, paid, sts)
  = Some (r, (sum_from bal (map _balance r),
              sum_from payable (map _interest_payable_balance r),
              sum_from paid (map _interest_paid r),
              (sts ++ map read_statement r)%list)).
Proof.
  intros En. induction advances as [|a rest IH]; intros bal payable paid sts; cbv zeta.
  - cbn [statement_loop map sum_from fold_left]. now rewrite app_nil_r.
  - cbn [statement_loop map]. unfold get_statement. rewrite En.
    specialize (IH (Dec.add bal (st_balance
                      (read_statement (calculate_interest_payable_balance a next))))
                   (Dec.add payable (st_interest_payable_balance
                      (read_statement (calculate_interest_payable_balance a next))))
                   (Dec.add paid (st_interest_paid
                      (read_statement (calculate_interest_payable_balance a next))))
                   (sts ++ [read_statement (calculate_interest_payable_balance a next)])%list).
    cbv zeta in IH. rewrite IH. rewrite <- app_assoc. reflexivity.
Qed.

Lemma statement_loop_fails (date : datetime) (a : Advance) (rest : list Advance)
    (acc : Decimal * Decimal * Decimal * list Statement) :
  add_days date 1 = None -> statement_loop (a :: rest) date acc = None.
Proof. intros En. cbn [statement_loop]. unfold get_statement. now rewrite En. Qed.

(** When the statement fails. *)
Lemma get_global_statement_at_none (self : UserGlobalBalance) (date : datetime) :
  1 <= date <= _MAXORDINAL ->
  (get_global_statement_at self date = None
   <-> actives_advances self <> [] /\ date = _MAXORDINAL).
Proof.
  intros Hd. unfold get_global_statement_at.
  destruct (actives_advances self) as [|a rest] eqn:Ea.
  - cbn [statement_loop]. split; [discriminate|]. intros [H _]. now elim H.
  - destruct (add_days date 1) as [next|] eqn:En.
    + rewrite (statement_loop_spec date next (a :: rest) En). cbv zeta.
      split; [discriminate|]. intros [_ ->]. discriminate.
    + rewrite statement_loop_fails by assumption.
      split; [|reflexivity]. intros _. split; [discriminate|].
      unfold add_days in En.
      destruct (Z.leb_spec 1 (date + 1)); [|lia].
      destruct (Z.leb_spec (date + 1) _MAXORDINAL); [discriminate|lia].
Qed.



(** The advances and the figures after [get_global_statement]. *)
Lemma get_global_statement_at_spec (self self' : UserGlobalBalance)
    (g : GlobalStatement) (date : datetime) :
  get_global_statement_at self date = Some (self', g) ->
  actives_advances self' =
    map (fun a => calculate_interest_payable_balance a (date + 1)) (actives_advances self)
  /\ gs_individual_advance_statement g = map read_statement (actives_advances self')
  /\ gs_overall_advance_balance g =
     sum_from Dec.zero (map st_balance (gs_individual_advance_statement g))
  /\ gs_overall_interest_payable_balance g =
     sum_from Dec.zero (map st_interest_payable_balance (gs_individual_advance_statement g))
  /\ gs_overall_interest_paid g =
     sum_from Dec.zero (map st_interest_paid (gs_individual_advance_statement g))
  /\ gs_overall_payments_for_future g = overall_payments_for_future self
  /\ overall_payments_for_future self' = overall_payments_for_future self.
Proof.
  unfold get_global_statement_at. intros H.
  destruct (actives_advances self) as [|a rest] eqn:Ea.
  - cbn [statement_loop] in H. injection H as <- <-.
    cbn. repeat split; reflexivity.
  - destruct (add_days date 1) as [next|] eqn:En.
    + rewrite (statement_loop_spec date next (a :: rest) En) in H. cbv zeta in H.
      apply add_days_next in En. subst next.
      remember (map (fun a => calculate_interest_payable_balance a (date + 1)) (a :: rest))
        as r eqn:Er.
      injection H as <- <-.
      cbn [actives_advances overall_payments_for_future gs_individual_advance_statement
           gs_overall_advance_balance gs_overall_interest_payable_balance
           gs_overall_interest_paid gs_overall_payments_for_future app].
      repeat split; try reflexivity; rewrite map_map; reflexivity.
    + rewrite statement_loop_fails in H by assumption. discriminate.
Qed.

(** X11: the statement [get_global_statement] returns has one line per
    advance, in the order of the advances, each read from the advance
    after its accrual through the day after the date; each total is the sum
    of the lines' figures, added up from zero in that order; the amount for
    future advances is reported and kept as it is. *)
Theorem get_global_statement_figures (self self' : UserGlobalBalance)
    (g : GlobalStatement) (date : datetime) :
  get_global_statement_at self date = Some (self', g) ->
  actives_advances self' =
    map (fun a => calculate_interest_payable_balance a (date + 1)) (actives_advances self)
  /\ gs_individual_advance_statement g = map read_statement (actives_advances self')
  /\ gs_overall_advance_balance g =
     sum_from Dec.zero (map st_balance (gs_individual_advance_statement g))
  /\ gs_overall_interest_payable_balance g =
     sum_from Dec.zero (map st_interest_payable_balance (gs_individual_advance_statement g))
  /\ gs_overall_interest_paid g =
     sum_from Dec.zero (map st_interest_paid (gs_individual_advance_statement g))
  /\ gs_overall_payments_for_future g = overall_payments_for_future self
  /\ overall_payments_for_future self' = overall_payments_for_future self.
Proof. exact (get_global_statement_at_spec self self' g date). Qed.

Lemma get_global_statement_figures_witness :
  exists s g,
    get_global_statement_at
      (create_advance_at new_UserGlobalBalance amount_1000_00 date_2021_01_01)
      date_2021_01_15 = Some (s, g)
    /\ gs_overall_advance_balance g =
       sum_from Dec.zero (map st_balance (gs_individual_advance_statement g)).
Proof.
  pose (r := get_global_statement_at
               (create_advance_at new_UserGlobalBalance amount_1000_00 date_2021_01_01)
               date_2021_01_15).
  pose (s := match r with Some (s, _) => s | None => new_UserGlobalBalance end).
  pose (g := match r with
             | Some (_, g) => g
             | None => mkGlobalStatement Dec.zero Dec.zero Dec.zero Dec.zero []
             end).
  assert (E : get_global_statement_at
                (create_advance_at new_UserGlobalBalance amount_1000_00 date_2021_01_01)
                date_2021_01_15 = Some (s, g)) by (vm_compute; reflexivity).
  exists s, g. split; [exact E|].
  now destruct (get_global_statement_figures _ _ _ _ E) as (_ & _ & H & _).
Defined.







(** ** Identifiers and the list of advances *)

Lemma Forall2_nth_error {A B : Type} (R : A -> B -> Prop) (l : list A) : forall l',
  List.length l' = List.length l ->
  (forall j a b, nth_error l j = Some a -> nth_error l' j = Some b -> R a b) ->
  Forall2 R l l'.
Proof.
  induction l as [|a l IH]; intros [|b l'] HL H; try discriminate; constructor.
  - apply (H 0%nat); reflexivity.
  - apply IH; [now injection HL|]. intros j x y Hx Hy. now apply (H (S j)).
Qed.

Lemma same_identity_refl (a : Advance) : same_identity a a.
Proof. repeat split. Qed.

Lemma same_identity_trans (a b c : Advance) :
  same_identity a b -> same_identity b c -> same_identity a c.
Proof.
  intros (A1 & A2 & A3 & A4) (B1 & B2 & B3 & B4). unfold same_identity.
  repeat split; congruence.
Qed.

Lemma Forall2_same_identity_trans (l1 : list Advance) : forall l2 l3,
  Forall2 same_identity l1 l2 -> Forall2 same_identity l2 l3 -> Forall2 same_identity l1 l3.
Proof.
  induction l1 as [|a l1 IH]; intros l2 l3 H12 H23; inversion H12; subst;
    inversion H23; subst; constructor.
  - eapply same_identity_trans; eassumption.
  - eapply IH; eassumption.
Qed.

Lemma pay_advance_at_identity (self : UserGlobalBalance) (amount : Decimal) (date : datetime) :
  Forall2 same_identity (actives_advances self)
    (actives_advances (pay_advance_at self amount date)).
Proof.
  destruct (pay_advance_at_order self amount date) as (L & H & _).
  apply Forall2_nth_error; [exact L|]. intros j a b Ha Hb.
  destruct (H j a b Ha Hb) as (I & _). exact I.
Qed.

Lemma accrual_identity (date : datetime) (l : list Advance) :
  Forall2 same_identity l (map (fun a => calculate_interest_payable_balance a date) l).
Proof. induction l; cbn [map]; constructor; [repeat split|assumption]. Qed.

(** What a call does to the list of advances: the advances it finds stay
    where they are, and [create_advance] puts one advance behind them. *)
Lemma do_call_advances (self self' : UserGlobalBalance) (c : call) :
  do_call self c = Some self' ->
  exists older newer,
    actives_advances self' = (older ++ newer)%list
    /\ Forall2 same_identity (actives_advances self) older
    /\ match c with
       | CreateAdvance amount d =>
           exists n, newer = [n]
             /\ _identifier n = Z.of_nat (List.length (actives_advances self)) + 1
             /\ _created_at n = d /\ _initial_amount n = amount
       | _ => newer = []
       end.
Proof.
  destruct c as [amount d|amount d|d]; cbn [do_call]; intros H.
  - injection H as <-. unfold create_advance_at.
    set (new := new_Advance _ _ amount d).
    assert (G : forall l, Forall2 same_identity (actives_advances self ++ [new])%list l ->
                exists older newer, l = (older ++ newer)%list
                  /\ Forall2 same_identity (actives_advances self) older
                  /\ exists n, newer = [n]
                       /\ _identifier n = Z.of_nat (List.length (actives_advances self)) + 1
                       /\ _created_at n = d /\ _initial_amount n = amount).
    { intros l Hl. apply Forall2_app_inv_l in Hl.
      destruct Hl as (older & newer & Ho & Hn & ->).
      exists older, newer. split; [reflexivity|]. split; [exact Ho|].
      inversion Hn as [|? n ? ? (I1 & I2 & I3 & I4) Hnil]; subst. inversion Hnil; subst.
      exists n. repeat split; assumption. }
    destruct (Dec.ltb Dec.zero (overall_payments_for_future self)).
    + apply G. apply (pay_advance_at_identity (mkUserGlobalBalance Dec.zero _)).
    + apply G. cbn [actives_advances].
      apply Forall2_app; [|constructor; [apply same_identity_refl|constructor]].
      apply Forall2_nth_error; [reflexivity|]. intros j a b Ha Hb.
      rewrite Ha in Hb. injection Hb as <-. apply same_identity_refl.
  - injection H as <-. exists (actives_advances (pay_advance_at self amount d)), [].
    rewrite app_nil_r. split; [reflexivity|]. split; [apply pay_advance_at_identity|reflexivity].
  - destruct (get_global_statement_at self d) as [[s g]|] eqn:E; [|discriminate].
    injection H as <-. destruct (get_global_statement_at_spec _ _ _ _ E) as (Ha & _).
    exists (actives_advances s), []. rewrite app_nil_r. split; [reflexivity|].
    split; [|reflexivity]. rewrite Ha. apply accrual_identity.
Qed.

Lemma same_identity_identifiers (l l' : list Advance) :
  Forall2 same_identity l l' ->
  map _identifier l' = map _identifier l /\ List.length l' = List.length l.
Proof.
  induction 1 as [|a b l l' (I & _) H [IH1 IH2]]; [split; reflexivity|].
  cbn [map List.length]. rewrite I, IH1, IH2. split; reflexivity.
Qed.

Lemma identifiers_succ (n : nat) :
  identifiers (S n) = (identifiers n ++ [Z.of_nat n + 1])%list.
Proof. unfold identifiers. rewrite seq_S, map_app. reflexivity. Qed.

Lemma do_call_identifiers (self self' : UserGlobalBalance) (c : call) :
  map _identifier (actives_advances self) = identifiers (List.length (actives_advances self)) ->
  do_call self c = Some self' ->
  map _identifier (actives_advances self')
    = identifiers (List.length (actives_advances self'))
  /\ List.length (actives_advances self')
     = (List.length (actives_advances self) + count_advances [c])%nat.
Proof.
  intros Hid H. destruct (do_call_advances self self' c H) as (older & newer & E & Ho & Hn).
  destruct (same_identity_identifiers _ _ Ho) as [Em El].
  rewrite E, map_app, length_app, Em, El, Hid.
  destruct c as [amount d|amount d|d].
  - destruct Hn as (n & -> & In & _). cbn [map List.length count_advances filter].
    rewrite In. replace (List.length (actives_advances self) + 1)%nat
      with (S (List.length (actives_advances self))) by lia.
    rewrite identifiers_succ. split; reflexivity.
  - subst newer. cbn [map List.length count_advances filter].
    rewrite app_nil_r, Nat.add_0_r. split; reflexivity.
  - subst newer. cbn [map List.length count_advances filter].
    rewrite app_nil_r, Nat.add_0_r. split; reflexivity.
Qed.

Lemma count_advances_cons (c : call) (rest : list call) :
  count_advances (c :: rest) = (count_advances [c] + count_advances rest)%nat.
Proof. unfold count_advances. cbn [filter]. destruct c; reflexivity. Qed.

Lemma replay_identifiers (calls : list call) : forall self self',
  map _identifier (actives_advances self) = identifiers (List.length (actives_advances self)) ->
  replay self calls = Some self' ->
  map _identifier (actives_advances self')
    = identifiers (List.length (actives_advances self'))
  /\ List.length (actives_advances self')
     = (List.length (actives_advances self) + count_advances calls)%nat.
Proof.
  induction calls as [|c rest IH]; intros self self' Hid H.
  - injection H as <-. split; [assumption|]. cbn. lia.
  - cbn [replay] in H. destruct (do_call self c) as [s1|] eqn:E; [|discriminate].
    destruct (do_call_identifiers self s1 c Hid E) as [H1 L1].
    destruct (IH s1 self' H1 H) as [H2 L2]. split; [assumption|].
    rewrite count_advances_cons. lia.
Qed.

(** X13: after any calls on a new engine, the advances carry the
    identifiers 1, 2, ..., n in the order of the list, and there are as
    many advances as there were calls of [create_advance]. *)
Theorem identifiers_are_sequential (calls : list call) (self : UserGlobalBalance) :
  replay new_UserGlobalBalance calls = Some self ->
  map _identifier (actives_advances self)
    = identifiers (List.length (actives_advances self))
  /\ List.length (actives_advances self) = count_advances calls.
Proof.
  intros H. destruct (replay_identifiers calls new_UserGlobalBalance self eq_refl H) as [H1 H2].
  split; assumption.
Qed.

Lemma identifiers_are_sequential_witness :
  exists s,
    replay new_UserGlobalBalance
      [CreateAdvance amount_1000_00 date_2021_01_01; PayAdvance amount_500_00 date_2021_01_15;
       CreateAdvance amount_500_00 date_2021_01_15] = Some s
    /\ map _identifier (actives_advances s) = [1; 2].
Proof.
  pose (calls := [CreateAdvance amount_1000_00 date_2021_01_01;
                  PayAdvance amount_500_00 date_2021_01_15;
                  CreateAdvance amount_500_00 date_2021_01_15]).
  pose (s := match replay new_UserGlobalBalance calls with
             | Some s => s
             | None => new_UserGlobalBalance
             end).
  assert (E : replay new_UserGlobalBalance calls = Some s) by (vm_compute; reflexivity).
  exists s. split; [exact E|].
  destruct (identifiers_are_sequential calls s E) as [H1 H2].
  rewrite H1, H2. reflexivity.
Defined.

(** X14: no call removes or moves an advance or changes its identifier, its
    date of creation, its strategy or its initial amount: after any calls,
    the advances found before are the first advances of the list, in the
    same order, and behind them stands one advance for each call of
    [create_advance]. *)
Theorem advances_are_kept (calls : list call) : forall (self self' : UserGlobalBalance),
  replay self calls = Some self' ->
  exists older newer,
    actives_advances self' = (older ++ newer)%list
    /\ Forall2 same_identity (actives_advances self) older
    /\ List.length newer = count_advances calls.
Proof.
  induction calls as [|c rest IH]; intros self self' H.
  - injection H as <-. exists (actives_advances self), []. rewrite app_nil_r.
    split; [reflexivity|]. split; [|reflexivity].
    apply Forall2_nth_error; [reflexivity|]. intros j a b Ha Hb.
    rewrite Ha in Hb. injection Hb as <-. apply same_identity_refl.
  - cbn [replay] in H. destruct (do_call self c) as [s1|] eqn:E; [|discriminate].
    destruct (do_call_advances self s1 c E) as (o1 & n1 & E1 & Ho1 & Hn1).
    destruct (IH s1 self' H) as (o2 & n2 & E2 & Ho2 & Hn2).
    rewrite E1 in Ho2. apply Forall2_app_inv_l in Ho2.
    destruct Ho2 as (o2a & o2b & Ha & Hb & ->).
    exists o2a, (o2b ++ n2)%list. rewrite E2, <- app_assoc.
    split; [reflexivity|]. split; [eapply Forall2_same_identity_trans; eassumption|].
    rewrite length_app, Hn2, count_advances_cons.
    apply Forall2_length in Hb. rewrite <- Hb.
    destruct c as [amount d|amount d|d].
    + destruct Hn1 as (n & -> & _). reflexivity.
    + subst n1. reflexivity.
    + subst n1. reflexivity.
Qed.

Lemma advances_are_kept_witness :
  exists s older newer,
    replay (create_advance_at new_UserGlobalBalance amount_1000_00 date_2021_01_01)
      [PayAdvance amount_500_00 date_2021_01_15;
       CreateAdvance amount_500_00 date_2021_01_15] = Some s
    /\ actives_advances s = (older ++ newer)%list
    /\ List.length newer = 1%nat.
Proof.
  pose (calls := [PayAdvance amount_500_00 date_2021_01_15;
                  CreateAdvance amount_500_00 date_2021_01_15]).
  pose (s0 := create_advance_at new_UserGlobalBalance amount_1000_00 date_2021_01_01).
  pose (s := match replay s0 calls with Some s => s | None => new_UserGlobalBalance end).
  assert (E : replay s0 calls = Some s) by (vm_compute; reflexivity).
  destruct (advances_are_kept calls s0 s E) as (older & newer & H1 & _ & H2).
  exists s, older, newer. split; [exact E|]. split; assumption.
Defined.

(** ** Dates *)

Lemma days_in_year_bound (year month day : Z) :
  1 <= month <= 12 -> 1 <= day <= _days_in_month year month ->
  1 <= _days_before_month year month + day
       <= 365 + (if _is_leap year then 1 else 0).
Proof.
  intros Hm Hd. unfold _days_in_month, _days_before_month in *.
  assert (C : month = 1 \/ month = 2 \/ month = 3 \/ month = 4 \/ month = 5 \/ month = 6 \/
              month = 7 \/ month = 8 \/ month = 9 \/ month = 10 \/ month = 11 \/ month = 12)
    by lia.
  destruct (_is_leap year);
    repeat (destruct C as [->|C];
            [cbv [nth Z.to_nat Pos.to_nat Pos.iter_op Nat.add Z.eqb Z.ltb Z.compare
                  Pos.compare Pos.compare_cont Pos.eqb andb] in *; lia|]);
    subst;
    cbv [nth Z.to_nat Pos.to_nat Pos.iter_op Nat.add Z.eqb Z.ltb Z.compare
         Pos.compare Pos.compare_cont Pos.eqb andb] in *; lia.
Qed.

Lemma days_before_year_bound (year : Z) :
  MINYEAR <= year <= MAXYEAR ->
  0 <= _days_before_year year
  /\ _days_before_year year + 365 + (if _is_leap year then 1 else 0) <= _MAXORDINAL.
Proof.
  unfold MINYEAR, MAXYEAR, _MAXORDINAL, _days_before_year, _is_leap. intros Hy. cbv zeta.
  destruct (Z.eqb_spec (year mod 4) 0) as [E4|N4]; cbn [andb].
  - destruct (negb (year mod 100 =? 0) || (year mod 400 =? 0));
      Z.div_mod_to_equations; lia.
  - Z.div_mod_to_equations; lia.
Qed.

(** A date that [strptime] returns lies between 0001-01-01 and
    9999-12-31. *)
Lemma strptime_range (s : string) (d : datetime) :
  strptime s = Some d -> 1 <= d <= _MAXORDINAL.
Proof.
  unfold strptime.
  destruct (list_ascii_of_string s) as [|y1 [|y2 [|y3 [|y4 [|h rest]]]]]; try discriminate.
  destruct (Ascii.eqb h "-"); [|discriminate].
  destruct (digit_of y1) as [a|]; [|discriminate].
  destruct (digit_of y2) as [b|]; [|discriminate].
  destruct (digit_of y3) as [c|]; [|discriminate].
  destruct (digit_of y4) as [e|]; [|discriminate].
  destruct (split_hyphen rest) as [[ms ds]|]; [|discriminate].
  destruct (parse_month ms) as [m|]; [|discriminate].
  destruct (parse_day ds) as [dd|]; [|discriminate].
  set (y := 1000 * a + 100 * b + 10 * c + e). unfold make_datetime.
  destruct (Z.leb_spec MINYEAR y); [|discriminate].
  destruct (Z.leb_spec y MAXYEAR); [|discriminate].
  destruct (Z.leb_spec 1 m); [|discriminate].
  destruct (Z.leb_spec m 12); [|discriminate].
  destruct (Z.leb_spec 1 dd); [|discriminate].
  destruct (Z.leb_spec dd (_days_in_month y m)); [|discriminate].
  cbn [andb]. intros [= <-]. unfold _ymd2ord.
  pose proof (days_in_year_bound y m dd ltac:(lia) ltac:(lia)).
  pose proof (days_before_year_bound y ltac:(lia)). lia.
Qed.

(** ** The [balances] command *)

Lemma balances_loop_replay (end_date : string) (e : datetime) (events : list event) :
  strptime end_date = Some e ->
  Forall (fun ev => strptime (event_date_created ev) <> None) events ->
  forall u, balances_loop u end_date events = replay u (calls_until e events).
Proof.
  intros He. induction 1 as [|ev rest Hev Hrest IH]; intros u; [reflexivity|].
  cbn [balances_loop calls_until]. rewrite He.
  destruct (strptime (event_date_created ev)) as [d|] eqn:Ed; [|now elim Hev].
  destruct (d <=? e); [|apply IH].
  destruct (String.eqb (event_type ev) "advance").
  - unfold create_advance. rewrite Ed. cbn [replay do_call]. apply IH.
  - destruct (String.eqb (event_type ev) "payment"); [|apply IH].
    unfold pay_advance. rewrite Ed. cbn [replay do_call]. apply IH.
Qed.

(** The calls the loop of [balances] makes. *)
Lemma balances_applies_events_until_end_date_helper (end_date : string) (e : datetime)
    (events : list event) (u : UserGlobalBalance) :
  strptime end_date = Some e ->
  Forall (fun ev => strptime (event_date_created ev) <> None) events ->
  balances_loop u end_date events = replay u (calls_until e events)
  /\ Forall (fun c => call_date c <= e) (calls_until e events)
  /\ Forall (fun c => match c with GetGlobalStatement _ => False | _ => True end)
       (calls_until e events).
Proof.
  intros He Hev. split; [now apply balances_loop_replay|].
  clear He. induction events as [|ev rest IH]; [split; constructor|].
  inversion Hev as [|? ? _ Hrest]; subst. destruct (IH Hrest) as [I1 I2].
  cbn [calls_until]. destruct (strptime (event_date_created ev)) as [d|]; [|now split].
  destruct (Z.leb_spec d e); [|now split].
  destruct (String.eqb (event_type ev) "advance"); [split; constructor; auto|].
  destruct (String.eqb (event_type ev) "payment"); [split; constructor; auto|now split].
Qed.

(** X15: [balances] applies the events of a date up to the end date, in
    the order given, as calls of [create_advance] and [pay_advance]; events
    dated after the end date and events of another type than "advance" and
    "payment" change nothing. *)
Theorem balances_applies_events_until_end_date (end_date : string) (e : datetime)
    (events : list event) (u : UserGlobalBalance) :
  strptime end_date = Some e ->
  Forall (fun ev => strptime (event_date_created ev) <> None) events ->
  balances_loop u end_date events = replay u (calls_until e events)
  /\ Forall (fun c => call_date c <= e) (calls_until e events)
  /\ Forall (fun c => match c with GetGlobalStatement _ => False | _ => True end)
       (calls_until e events).
Proof. exact (balances_applies_events_until_end_date_helper end_date e events u). Qed.

Lemma balances_applies_events_until_end_date_witness :
  balances_loop new_UserGlobalBalance "2021-01-10"
    [mkEvent "advance" amount_1000_00 "2021-01-01";
     mkEvent "payment" amount_500_00 "2021-01-15"]
  = replay new_UserGlobalBalance [CreateAdvance amount_1000_00 date_2021_01_01].
Proof.
  destruct (balances_applies_events_until_end_date "2021-01-10" 737800
              [mkEvent "advance" amount_1000_00 "2021-01-01";
               mkEvent "payment" amount_500_00 "2021-01-15"] new_UserGlobalBalance)
    as (H & _).
  - reflexivity.
  - constructor; [vm_compute; discriminate|]. constructor; [vm_compute; discriminate|constructor].
  - exact H.
Defined.

Lemma replay_events_total (calls : list call) :
  Forall (fun c => match c with GetGlobalStatement _ => False | _ => True end) calls ->
  forall u, exists u', replay u calls = Some u'.
Proof.
  induction 1 as [|c rest Hc Hrest IH]; intros u; [now exists u|].
  cbn [replay]. destruct c as [amount d|amount d|d]; cbn [do_call]; [apply IH|apply IH|].
  now elim Hc.
Qed.

Lemma balances_loop_bad_date (end_date : string) (events : list event) :
  Exists (fun ev => strptime (event_date_created ev) = None) events ->
  forall u, balances_loop u end_date events = None.
Proof.
  induction events as [|ev rest IH]; intros H u; [inversion H|].
  cbn [balances_loop]. destruct (strptime end_date) as [e|]; [|reflexivity].
  destruct (strptime (event_date_created ev)) as [d|] eqn:Ed; [|reflexivity].
  assert (Hrest : Exists (fun ev => strptime (event_date_created ev) = None) rest).
  { inversion H; subst; [congruence|assumption]. }
  destruct (d <=? e); [|now apply IH].
  destruct (String.eqb (event_type ev) "advance").
  - unfold create_advance. rewrite Ed. now apply IH.
  - destruct (String.eqb (event_type ev) "payment"); [|now apply IH].
    unfold pay_advance. rewrite Ed. now apply IH.
Qed.

Lemma count_advances_until_last_day (events : list event) :
  Forall (fun ev => strptime (event_date_created ev) <> None) events ->
  (count_advances (calls_until _MAXORDINAL events) <> 0%nat
   <-> Exists (fun ev => event_type ev = "advance"%string) events).
Proof.
  induction 1 as [|ev rest Hev Hrest IH].
  - cbn. split; [intros X; now elim X|intros X; inversion X].
  - cbn [calls_until].
    destruct (strptime (event_date_created ev)) as [d|] eqn:Ed; [|now elim Hev].
    apply strptime_range in Ed. destruct (Z.leb_spec d _MAXORDINAL); [|lia].
    destruct (String.eqb_spec (event_type ev) "advance") as [Et|Et].
    + rewrite count_advances_cons. cbn. split; [intros _; now left|intros _; lia].
    + assert (G : count_advances (calls_until _MAXORDINAL rest) <> 0%nat
                  <-> Exists (fun ev => event_type ev = "advance"%string) (ev :: rest)).
      { rewrite IH. split; [now right|]. intros X. inversion X; subst; [contradiction|assumption]. }
      destruct (String.eqb (event_type ev) "payment"); [|exact G].
      rewrite count_advances_cons. exact G.
Qed.

Lemma date_parses_dec (ev : event) :
  {strptime (event_date_created ev) <> None} + {~ strptime (event_date_created ev) <> None}.
Proof.
  destruct (strptime (event_date_created ev)); [left; discriminate|right].
  intros H. now apply H.
Qed.

(** In the embedding of [balances], whose events carry the amount already
    converted and whose dates are read by the embedding of [strptime],
    [None] is returned in three cases and in no other. *)
Lemma balances_none_iff (end_date : string) (events : list event) :
  balances end_date events = None
  <-> strptime end_date = None
      \/ Exists (fun ev => strptime (event_date_created ev) = None) events
      \/ (strptime end_date = Some _MAXORDINAL
          /\ Exists (fun ev => event_type ev = "advance"%string) events).
Proof.
  unfold balances, get_global_statement.
  destruct (strptime end_date) as [e|] eqn:He.
  2:{ split; [now left|intros _].
      destruct (balances_loop new_UserGlobalBalance end_date events); reflexivity. }
  destruct (Forall_Exists_dec (fun ev => strptime (event_date_created ev) <> None)
              date_parses_dec events) as [Hgood|Hbad].
  - destruct (balances_applies_events_until_end_date_helper end_date e events
                new_UserGlobalBalance He Hgood) as (El & _ & Hno).
    rewrite El. destruct (replay_events_total _ Hno new_UserGlobalBalance) as [u Eu].
    rewrite Eu.
    destruct (replay_identifiers _ new_UserGlobalBalance u eq_refl Eu) as [_ Len]. cbn in Len.
    pose proof (get_global_statement_at_none u e (strptime_range _ _ He)) as Hn.
    assert (Hne : actives_advances u <> [] <-> count_advances (calls_until e events) <> 0%nat).
    { rewrite <- Len. destruct (actives_advances u); cbn; split; congruence. }
    destruct (get_global_statement_at u e) as [[u' g]|].
    + split; [discriminate|]. intros [H|[H|[H1 H2]]]; [discriminate| |].
      * exfalso. rewrite Forall_forall in Hgood.
        apply Exists_exists in H. destruct H as (ev & Hin & Hev). now apply (Hgood ev Hin).
      * injection H1 as ->. apply count_advances_until_last_day in H2; [|assumption].
        apply Hne in H2. destruct Hn as [_ Hn]. discriminate (Hn (conj H2 eq_refl)).
    + split; [|reflexivity]. intros _. right. right.
      destruct Hn as [Hn _]. destruct (Hn eq_refl) as [Ha ->]. split; [reflexivity|].
      apply count_advances_until_last_day; [assumption|]. now apply Hne.
  - assert (Hb : Exists (fun ev => strptime (event_date_created ev) = None) events).
    { apply Exists_exists. apply Exists_exists in Hbad. destruct Hbad as (ev & Hin & Hev).
      exists ev. split; [assumption|].
      destruct (strptime (event_date_created ev)); [|reflexivity].
      exfalso. apply Hev. discriminate. }
    rewrite (balances_loop_bad_date end_date events Hb). split; [|reflexivity].
    intros _. right. now left.
Qed.

(** X16: with an end date and event dates of ASCII characters, [balances]
    fails in each of three cases: the end date is not a date in the format
    [%Y-%m-%d]; the date of some event is not; or the end date is
    9999-12-31 and there is an event of type "advance", so that the
    statement needs the day after the last day. *)
Theorem balances_fails_when (end_date : string) (events : list event) :
  is_ascii end_date = true ->
  Forall (fun ev => is_ascii (event_date_created ev) = true) events ->
  strptime end_date = None
  \/ Exists (fun ev => strptime (event_date_created ev) = None) events
  \/ (strptime end_date = Some _MAXORDINAL
      /\ Exists (fun ev => event_type ev = "advance"%string) events) ->
  balances end_date events = None.
Proof. intros _ _ H. now apply balances_none_iff. Qed.

Lemma balances_fails_when_witness :
  balances "2021-01-10" [mkEvent "payment" amount_500_00 "2021-02-30"] = None
  /\ balances "9999-12-31" [mkEvent "advance" amount_1000_00 "2021-01-01"] = None.
Proof.
  split.
  - apply (balances_fails_when "2021-01-10" [mkEvent "payment" amount_500_00 "2021-02-30"]).
    + reflexivity.
    + constructor; [reflexivity|constructor].
    + right. left. constructor. reflexivity.
  - apply (balances_fails_when "9999-12-31" [mkEvent "advance" amount_1000_00 "2021-01-01"]).
    + reflexivity.
    + constructor; [reflexivity|constructor].
    + right. right. split; [reflexivity|]. constructor. reflexivity.
Defined.

Lemma replay_inv_until (e : datetime) (calls : list call) : forall last self self',
  last <= e -> date_ordered last calls ->
  Forall (fun c => call_date c <= e) calls ->
  Forall positive_amount calls -> Forall advance_amount_fits calls ->
  engine_inv last self -> replay self calls = Some self' ->
  engine_inv e self'.
Proof.
  induction calls as [|c rest IH]; intros last self self' Hl Ho He Hp Hf Inv H.
  - injection H as <-. destruct Inv as [HA HC]. split; [|assumption].
    now apply (Forall_advance_inv_later last).
  - cbn [replay] in H. destruct (do_call self c) as [s1|] eqn:E; [|discriminate].
    destruct Ho as [Hd Ho]. inversion He; subst. inversion Hp; subst. inversion Hf; subst.
    apply (IH (call_date c) s1); try assumption.
    eapply do_call_inv; eassumption.
Qed.

Lemma calls_until_ordered (e : datetime) (events : list event) : forall from x,
  events_ordered from events -> x <= from -> date_ordered x (calls_until e events).
Proof.
  induction events as [|ev rest IH]; intros from x Ho Hx; [exact I|].
  cbn [events_ordered calls_until] in *.
  destruct (strptime (event_date_created ev)) as [d|]; [|contradiction].
  destruct Ho as [Hd Ho].
  assert (G : date_ordered x (calls_until e rest)) by (apply (IH d); [assumption|lia]).
  destruct (d <=? e); [|exact G].
  destruct (String.eqb (event_type ev) "advance").
  - cbn [date_ordered call_date]. split; [lia|]. apply (IH d); [assumption|lia].
  - destruct (String.eqb (event_type ev) "payment"); [|exact G].
    cbn [date_ordered call_date]. split; [lia|]. apply (IH d); [assumption|lia].
Qed.

Lemma events_ordered_parse (events : list event) : forall from,
  events_ordered from events ->
  Forall (fun ev => strptime (event_date_created ev) <> None) events.
Proof.
  induction events as [|ev rest IH]; intros from Ho; [constructor|].
  cbn [events_ordered] in Ho.
  destruct (strptime (event_date_created ev)) as [d|] eqn:Ed; [|contradiction].
  destruct Ho as [_ Ho]. constructor; [congruence|]. now apply (IH d).
Qed.

Lemma calls_until_amounts (e : datetime) (events : list event) :
  Forall (fun ev => (0 < toQ (event_amount ev))%Q) events ->
  Forall (fun ev => event_type ev = "advance"%string -> fits (event_amount ev)) events ->
  Forall positive_amount (calls_until e events)
  /\ Forall advance_amount_fits (calls_until e events).
Proof.
  induction events as [|ev rest IH]; intros Hp Hf; [split; constructor|].
  inversion Hp as [|? ? Pev Prest]; subst. inversion Hf as [|? ? Fev Frest]; subst.
  destruct (IH Prest Frest) as [I1 I2]. cbn [calls_until].
  destruct (strptime (event_date_created ev)) as [d|]; [|now split].
  destruct (d <=? e); [|now split].
  destruct (String.eqb_spec (event_type ev) "advance") as [Et|Et].
  - split; constructor; auto. cbn. now apply Fev.
  - destruct (String.eqb (event_type ev) "payment"); [|now split].
    split; constructor; auto. exact I.
Qed.

Lemma sum_from_nonneg (l : list Decimal) : forall s,
  (0 <= toQ s)%Q -> Forall (fun x => (0 <= toQ x)%Q) l -> (0 <= toQ (sum_from s l))%Q.
Proof.
  unfold sum_from. induction l as [|x l IH]; intros s Hs H; [exact Hs|].
  inversion H; subst. cbn [fold_left]. apply IH; [|assumption].
  now apply DecFacts.add_nonneg.
Qed.

(** X17: for events that come in the order of their dates, with positive
    amounts and advances of at most 28 significant digits, every statement
    [balances] returns is in range: each line shows a balance between zero
    and the initial amount and an interest payable that is not negative,
    and the total balance, the total interest payable and the amount for
    future advances are not negative. *)
Theorem balances_statement_in_range (end_date : string) (from : datetime)
    (events : list event) (g : GlobalStatement) :
  events_ordered from events ->
  Forall (fun ev => (0 < toQ (event_amount ev))%Q) events ->
  Forall (fun ev => event_type ev = "advance"%string -> fits (event_amount ev)) events ->
  balances end_date events = Some g ->
  Forall statement_in_range (gs_individual_advance_statement g)
  /\ (0 <= toQ (gs_overall_advance_balance g))%Q
  /\ (0 <= toQ (gs_overall_interest_payable_balance g))%Q
  /\ (0 <= toQ (gs_overall_payments_for_future g))%Q.
Proof.
  intros Ho Hp Hf H. unfold balances, get_global_statement in H.
  pose proof (events_ordered_parse events from Ho) as Hgood.
  destruct (strptime end_date) as [e|] eqn:He.
  2:{ destruct (balances_loop new_UserGlobalBalance end_date events); discriminate. }
  destruct (balances_applies_events_until_end_date_helper end_date e events
              new_UserGlobalBalance He Hgood) as (El & Hle & _).
  rewrite El in H.
  destruct (replay new_UserGlobalBalance (calls_until e events)) as [u|] eqn:Eu;
    [|discriminate].
  destruct (calls_until_amounts e events Hp Hf) as [Cp Cf].
  assert (Inv : engine_inv e u).
  { apply (replay_inv_until e (calls_until e events) (Z.min from e)
             new_UserGlobalBalance u); try assumption.
    - lia.
    - apply (calls_until_ordered e events from); [assumption|lia].
    - split; [constructor|]. cbn. rewrite DecFacts.toQ_zero. lra. }
  destruct (get_global_statement_at u e) as [[u' g']|] eqn:Eg; [|discriminate].
  injection H as <-.
  assert (Inv' : Forall (advance_inv e) (actives_advances u')).
  { unfold get_global_statement_at in Eg. destruct Inv as [HA _].
    destruct (statement_loop (actives_advances u) e _)
      as [[advances' [[[bal payable] paid] sts]]|] eqn:E; [|discriminate].
    injection Eg as <- _. cbn [actives_advances].
    eapply (statement_loop_inv e e); [lia|exact HA|exact E]. }
  destruct (get_global_statement_at_spec u u' g' e Eg) as (_ & Hl & Hb & Hi & _ & Hc & _).
  destruct Inv as [_ HC].
  assert (R : Forall statement_in_range (gs_individual_advance_statement g')).
  { rewrite Hl. apply Forall_forall. intros st Hin. apply in_map_iff in Hin.
    destruct Hin as (a & <- & Ha). rewrite Forall_forall in Inv'.
    destruct (Inv' a Ha) as ((B & I & BI & _) & _). repeat split; assumption. }
  split; [exact R|]. rewrite Hb, Hi, Hc.
  split; [|split; [|exact HC]].
  - apply sum_from_nonneg; [rewrite DecFacts.toQ_zero; lra|].
    apply Forall_forall. intros x Hin. apply in_map_iff in Hin.
    destruct Hin as (st & <- & Hst). rewrite Forall_forall in R. now apply (R st Hst).
  - apply sum_from_nonneg; [rewrite DecFacts.toQ_zero; lra|].
    apply Forall_forall. intros x Hin. apply in_map_iff in Hin.
    destruct Hin as (st & <- & Hst). rewrite Forall_forall in R. now apply (R st Hst).
Qed.

Lemma balances_statement_in_range_witness :
  exists g,
    balances "2021-01-15"
      [mkEvent "advance" amount_1000_00 "2021-01-01";
       mkEvent "payment" amount_500_00 "2021-01-15"] = Some g
    /\ Forall statement_in_range (gs_individual_advance_statement g).
Proof.
  pose (events := [mkEvent "advance" amount_1000_00 "2021-01-01";
                   mkEvent "payment" amount_500_00 "2021-01-15"]).
  pose (g := match balances "2021-01-15" events with
             | Some g => g
             | None => mkGlobalStatement Dec.zero Dec.zero Dec.zero Dec.zero []
             end).
  assert (E : balances "2021-01-15" events = Some g) by (vm_compute; reflexivity).
  exists g. split; [exact E|].
  destruct (balances_statement_in_range "2021-01-15" date_2021_01_01 events g) as (H & _).
  - vm_compute. repeat split; congruence.
  - constructor; [now vm_compute|]. constructor; [now vm_compute|constructor].
  - constructor; [intros _; now vm_compute|]. constructor; [intros _; now vm_compute|constructor].
  - exact E.
  - exact H.
Defined.

(** ** Further properties of accrual and payment *)




